(** * ViralAudit landing page: the mocked session container

    A shallow embedding of [src/index.tsx]: the [AuthProvider] state
    container, the components' event handlers that call it, and the two
    platform services the container relies on, [localStorage] and
    [JSON.parse]/[JSON.stringify].

    - JavaScript strings are sequences of UTF-16 code units, modelled as
      [list N] (a code unit is a number below 2^16).
    - [localStorage] is a finite map from strings to strings ([gmap]).
    - A JavaScript value that can come out of [JSON.parse] is a [jsval].
      TypeScript's annotation [User | null] is erased at run time, so the
      [user] slot of the container holds a [jsval].
    - Handlers run in a small state-and-exception monad over a [World]
      that also records the sequence of primitive calls they make.
    - What the browser decides (whether [localStorage] accepts a write or
      throws QuotaExceededError, whether a text passes the validation of
      an email field) is a parameter of the page, and the properties hold
      for every browser. *)

From Stdlib Require Import NArith ZArith List Lia Ascii String.
From stdpp Require Import base option list gmap.

Local Open Scope N_scope.

(** ** JavaScript strings *)

Abbreviation jsstring := (list N).

(** The code units of an ASCII literal of the source. *)
Definition js (s : string) : jsstring :=
  map N_of_ascii (list_ascii_of_string s).

Definition QUOTE : N := 34.      (* double quote *)
Definition BACKSLASH : N := 92.  (* backslash *)
Definition SLASH : N := 47.      (* solidus *)
Definition LBRACE : N := 123.
Definition RBRACE : N := 125.
Definition LBRACKET : N := 91.
Definition RBRACKET : N := 93.
Definition COMMA : N := 44.
Definition COLON : N := 58.
Definition MINUS : N := 45.
Definition PLUS : N := 43.
Definition DOT : N := 46.

(** ** JSON values *)

(** A number keeps the mathematical value of its literal,
    [(-1)^neg * mant * 10^exp10]; the rounding to a double is not
    modelled, so equality of [JNum]s is finer than JavaScript's.  An object
    is the list of its own properties in creation order. *)
Inductive jsval : Type :=
| JNull
| JBool (b : bool)
| JNum (neg : bool) (mant : N) (exp10 : Z)
| JStr (s : jsstring)
| JArr (elems : list jsval)
| JObj (props : list (jsstring * jsval)).

(** [2^-1075] is half the smallest positive double: a literal rounds to
    zero exactly when its magnitude is at most that (ties go to even). *)
Definition rounds_to_zero (mant : N) (exp10 : Z) : bool :=
  (mant =? 0) ||
  ((exp10 <? 0)%Z &&
   (mant * 2 ^ 1075 <=? 10 ^ Z.to_N (- exp10))).

(** ECMAScript [ToBoolean], the test behind [if (user)], [!user] and
    [user ? a : b]. *)
Definition ToBoolean (v : jsval) : bool :=
  match v with
  | JNull => false
  | JBool b => b
  | JNum _ m e => negb (rounds_to_zero m e)
  | JStr s => match s with [] => false | _ => true end
  | JArr _ => true
  | JObj _ => true
  end.

Definition jsstring_eqb (a b : jsstring) : bool := bool_decide (a = b).

(** [CreateDataProperty]: a repeated key keeps its place and takes the new
    value. *)
Fixpoint obj_set (k : jsstring) (v : jsval) (o : list (jsstring * jsval))
  : list (jsstring * jsval) :=
  match o with
  | [] => [(k, v)]
  | (k', v') :: o' =>
      if jsstring_eqb k k' then (k, v) :: o' else (k', v') :: obj_set k v o'
  end.

Fixpoint obj_get (k : jsstring) (o : list (jsstring * jsval)) : option jsval :=
  match o with
  | [] => None
  | (k', v') :: o' => if jsstring_eqb k k' then Some v' else obj_get k o'
  end.

(** ** JSON.parse *)

Inductive pres (A : Type) : Type :=
| POk (a : A) (rest : jsstring)
| PErr
| PFuel.
Arguments POk {A} a rest.
Arguments PErr {A}.
Arguments PFuel {A}.

Definition is_ws (c : N) : bool :=
  (c =? 9) || (c =? 10) || (c =? 13) || (c =? 32).

Fixpoint skip_ws (s : jsstring) : jsstring :=
  match s with
  | c :: r => if is_ws c then skip_ws r else s
  | [] => []
  end.

Definition is_digit (c : N) : bool := (48 <=? c) && (c <=? 57).

Definition hexval (c : N) : option N :=
  if is_digit c then Some (c - 48)
  else if (97 <=? c) && (c <=? 102) then Some (c - 87)
  else if (65 <=? c) && (c <=? 70) then Some (c - 55)
  else None.

Definition hex4 (a b c d : N) : option N :=
  match hexval a, hexval b, hexval c, hexval d with
  | Some x, Some y, Some z, Some w => Some (((x * 16 + y) * 16 + z) * 16 + w)
  | _, _, _, _ => None
  end.

(** The single-character escapes of the JSON grammar. *)
Definition unescape (c : N) : option N :=
  if c =? QUOTE then Some QUOTE
  else if c =? BACKSLASH then Some BACKSLASH
  else if c =? SLASH then Some SLASH
  else if c =? 98 then Some 8        (* \b *)
  else if c =? 102 then Some 12      (* \f *)
  else if c =? 110 then Some 10      (* \n *)
  else if c =? 114 then Some 13      (* \r *)
  else if c =? 116 then Some 9       (* \t *)
  else None.

(** The characters of a string literal after its opening quote, up to and
    including the closing quote. *)
Fixpoint parse_string (s : jsstring) : option (jsstring * jsstring) :=
  match s with
  | [] => None
  | c :: r =>
      if c =? QUOTE then Some ([], r)
      else if c =? BACKSLASH then
        match r with
        | [] => None
        | e :: r' =>
            if e =? 117 then           (* \uXXXX *)
              match r' with
              | h1 :: h2 :: h3 :: h4 :: r'' =>
                  match hex4 h1 h2 h3 h4 with
                  | Some u =>
                      match parse_string r'' with
                      | Some (str, rest) => Some (u :: str, rest)
                      | None => None
                      end
                  | None => None
                  end
              | _ => None
              end
            else
              match unescape e with
              | Some u =>
                  match parse_string r' with
                  | Some (str, rest) => Some (u :: str, rest)
                  | None => None
                  end
              | None => None
              end
        end
      else if c <? 32 then None
      else
        match parse_string r with
        | Some (str, rest) => Some (c :: str, rest)
        | None => None
        end
  end.

Fixpoint span_digits (s : jsstring) : list N * jsstring :=
  match s with
  | c :: r =>
      if is_digit c then
        let '(ds, r') := span_digits r in (c - 48 :: ds, r')
      else ([], s)
  | [] => ([], [])
  end.

Definition digits_value (ds : list N) : N :=
  fold_left (fun a d => 10 * a + d) ds 0.

(** A JSON number: an optional minus sign; an integer part that is either
    the digit 0 alone or starts with a non-zero digit; an optional fraction
    (a dot and at least one digit); an optional exponent (e or E, an
    optional sign, at least one digit). *)
Definition parse_number (s : jsstring) : option (jsval * jsstring) :=
  let '(neg, s1) :=
    match s with
    | c :: r => if c =? MINUS then (true, r) else (false, s)
    | [] => (false, s)
    end in
  match span_digits s1 with
  | ([], _) => None
  | (d :: ds, s2) =>
      if (d =? 0) && negb (bool_decide (ds = [])) then None
      else
        let ints := d :: ds in
        let frac :=
          match s2 with
          | c :: r =>
              if c =? DOT then
                match span_digits r with
                | ([], _) => None
                | (fs, s3) => Some (fs, s3)
                end
              else Some ([], s2)
          | [] => Some ([], s2)
          end in
        match frac with
        | None => None
        | Some (fs, s3) =>
            let expo :=
              match s3 with
              | c :: r =>
                  if (c =? 101) || (c =? 69) then
                    let '(eneg, r1) :=
                      match r with
                      | g :: r0 =>
                          if g =? MINUS then (true, r0)
                          else if g =? PLUS then (false, r0)
                          else (false, r)
                      | [] => (false, r)
                      end in
                    match span_digits r1 with
                    | ([], _) => None
                    | (es, s4) =>
                        let e := Z.of_N (digits_value es) in
                        Some ((if eneg then - e else e)%Z, s4)
                    end
                  else Some (0%Z, s3)
              | [] => Some (0%Z, s3)
              end in
            match expo with
            | None => None
            | Some (e, s4) =>
                Some (JNum neg (digits_value (ints ++ fs))
                        (e - Z.of_nat (length fs))%Z, s4)
            end
        end
  end.

Fixpoint strip_prefix (p s : jsstring) : option jsstring :=
  match p, s with
  | [], _ => Some s
  | a :: p', b :: s' => if a =? b then strip_prefix p' s' else None
  | _ :: _, [] => None
  end.

Definition parse_literal (s : jsstring) : option (jsval * jsstring) :=
  match strip_prefix (js "true") s with
  | Some r => Some (JBool true, r)
  | None =>
      match strip_prefix (js "false") s with
      | Some r => Some (JBool false, r)
      | None =>
          match strip_prefix (js "null") s with
          | Some r => Some (JNull, r)
          | None => None
          end
      end
  end.

Definition of_option {A} (o : option (A * jsstring)) : pres A :=
  match o with
  | Some (a, r) => POk a r
  | None => PErr
  end.

(** The recursive-descent parser of the JSON grammar.  [parse_value]
    expects its input with leading white space already skipped.  The fuel
    bounds the nesting of calls; [JSON_parse_fuel_enough] shows it is never
    exhausted. *)
Fixpoint parse_value (fuel : nat) (s : jsstring) : pres jsval :=
  match fuel with
  | O => PFuel
  | S f =>
      match s with
      | [] => PErr
      | c :: r =>
          if c =? LBRACE then
            match skip_ws r with
            | [] => PErr
            | c' :: r' =>
                if c' =? RBRACE then POk (JObj []) r'
                else parse_members f (c' :: r') []
            end
          else if c =? LBRACKET then
            match skip_ws r with
            | [] => PErr
            | c' :: r' =>
                if c' =? RBRACKET then POk (JArr []) r'
                else parse_elements f (c' :: r') []
            end
          else if c =? QUOTE then
            match parse_string r with
            | Some (str, rest) => POk (JStr str) rest
            | None => PErr
            end
          else if (c =? MINUS) || is_digit c then of_option (parse_number s)
          else of_option (parse_literal s)
      end
  end
with parse_elements (fuel : nat) (s : jsstring) (acc : list jsval)
  : pres jsval :=
  match fuel with
  | O => PFuel
  | S f =>
      match parse_value f (skip_ws s) with
      | POk v r =>
          match skip_ws r with
          | [] => PErr
          | c :: r' =>
              if c =? COMMA then parse_elements f r' (acc ++ [v])
              else if c =? RBRACKET then POk (JArr (acc ++ [v])) r'
              else PErr
          end
      | PErr => PErr
      | PFuel => PFuel
      end
  end
with parse_members (fuel : nat) (s : jsstring) (acc : list (jsstring * jsval))
  : pres jsval :=
  match fuel with
  | O => PFuel
  | S f =>
      match skip_ws s with
      | [] => PErr
      | q :: r0 =>
          if q =? QUOTE then
            match parse_string r0 with
            | None => PErr
            | Some (k, r1) =>
                match skip_ws r1 with
                | [] => PErr
                | c1 :: r2 =>
                    if c1 =? COLON then
                      match parse_value f (skip_ws r2) with
                      | POk v r3 =>
                          match skip_ws r3 with
                          | [] => PErr
                          | c :: r' =>
                              if c =? COMMA then
                                parse_members f r' (obj_set k v acc)
                              else if c =? RBRACE then
                                POk (JObj (obj_set k v acc)) r'
                              else PErr
                          end
                      | PErr => PErr
                      | PFuel => PFuel
                      end
                    else PErr
                end
            end
          else PErr
      end
  end.

(** The whole text must be one value between optional white space. *)
Definition parse_text (fuel : nat) (s : jsstring) : pres jsval :=
  match parse_value fuel (skip_ws s) with
  | POk v r => match skip_ws r with [] => POk v [] | _ => PErr end
  | PErr => PErr
  | PFuel => PFuel
  end.

Definition parse_fuel (s : jsstring) : nat := S (2 * length s).

(** [JSON.parse(text)]: the value, or [None] when it throws SyntaxError. *)
Definition JSON_parse (s : jsstring) : option jsval :=
  match parse_text (parse_fuel s) s with
  | POk v _ => Some v
  | _ => None
  end.

(** ** JSON.stringify *)

Definition is_leading_surrogate (c : N) : bool := (55296 <=? c) && (c <=? 56319).
Definition is_trailing_surrogate (c : N) : bool := (56320 <=? c) && (c <=? 57343).

Definition hexchar (d : N) : N := if d <? 10 then 48 + d else 87 + d.

(** [UnicodeEscape]: a backslash, the letter u and four lower-case
    hexadecimal digits. *)
Definition UnicodeEscape (c : N) : jsstring :=
  [BACKSLASH; 117;
   hexchar ((c / 4096) mod 16); hexchar ((c / 256) mod 16);
   hexchar ((c / 16) mod 16); hexchar (c mod 16)].

(** One code point that is not a surrogate pair. *)
Definition quote_unit (c : N) : jsstring :=
  if c =? 8 then [BACKSLASH; 98]
  else if c =? 9 then [BACKSLASH; 116]
  else if c =? 10 then [BACKSLASH; 110]
  else if c =? 12 then [BACKSLASH; 102]
  else if c =? 13 then [BACKSLASH; 114]
  else if c =? QUOTE then [BACKSLASH; QUOTE]
  else if c =? BACKSLASH then [BACKSLASH; BACKSLASH]
  else if (c <? 32) || is_leading_surrogate c || is_trailing_surrogate c
       then UnicodeEscape c
  else [c].

(** The code points of the string in turn: a leading surrogate followed by
    a trailing one is a single code point and is copied; any other
    surrogate stands alone and is escaped. *)
Fixpoint quote_units (s : jsstring) : jsstring :=
  match s with
  | [] => []
  | c :: r =>
      if is_leading_surrogate c then
        match r with
        | d :: r' =>
            if is_trailing_surrogate d then c :: d :: quote_units r'
            else UnicodeEscape c ++ quote_units r
        | [] => UnicodeEscape c
        end
      else quote_unit c ++ quote_units r
  end.

Definition QuoteJSONString (s : jsstring) : jsstring :=
  QUOTE :: quote_units s ++ [QUOTE].

(** An object whose own properties all hold strings, such as the
    [{ email }] that [login] and [signup] build, and the value it is at run
    time. *)
Abbreviation record := (list (jsstring * jsstring)).

Definition record_value (o : record) : jsval :=
  JObj (map (fun p => (fst p, JStr (snd p))) o).

Fixpoint serialize_properties (o : record) : jsstring :=
  match o with
  | [] => []
  | (k, v) :: o' =>
      QuoteJSONString k ++ COLON :: QuoteJSONString v ++
      match o' with
      | [] => []
      | _ :: _ => COMMA :: serialize_properties o'
      end
  end.

(** [JSON.stringify] at such an object (no indentation, no replacer). *)
Definition JSON_stringify (o : record) : jsstring :=
  LBRACE :: serialize_properties o ++ [RBRACE].

(** ** The state of the page *)

(** [authView: 'login' | 'signup'] *)
Inductive AuthView : Type := view_login | view_signup.

(** The four [useState] cells of [AuthProvider]. *)
Record AuthState : Type := mkAuthState {
  user : jsval;
  isLoading : bool;
  showAuthModal : bool;
  authView : AuthView
}.

(** The three [useState] cells of [AuthModal]. *)
Record FormState : Type := mkFormState {
  email : jsstring;
  password : jsstring;
  loading : bool
}.

(** What an [await]ing [handleSubmit] resumes with: the delay it asked
    [setTimeout] for and the variables of the render it closed over. *)
Record Timer : Type := mkTimer {
  delay : N;
  closed_authView : AuthView;
  closed_email : jsstring
}.

(** The primitive calls a handler makes, in the order it makes them.
    [Enter_login] and [Enter_signup] mark the entry into the two container
    operations; [Follow_link] is the browser's default action for a click
    on an anchor, [Submit_natively] the one for a form submission. *)
Inductive Call : Type :=
| Enter_login (email : jsstring)
| Enter_signup (email : jsstring)
| Call_getItem (key : jsstring)
| Call_setItem (key value : jsstring)
| Call_removeItem (key : jsstring)
| Call_setUser (v : jsval)
| Call_setIsLoading (b : bool)
| Call_setShowAuthModal (b : bool)
| Call_setAuthView (v : AuthView)
| Call_setEmail (s : jsstring)
| Call_setPassword (s : jsstring)
| Call_setLoading (b : bool)
| Call_preventDefault
| Call_setTimeout (ms : N)
| Call_window_open (url target : jsstring)
| Follow_link (href : jsstring) (target : option jsstring)
| Submit_natively.

Record World : Type := mkWorld {
  auth : AuthState;
  form : FormState;
  localStorage : gmap jsstring jsstring;
  defaultPrevented : bool;     (* of the event being dispatched *)
  timers : list Timer;         (* pending, oldest first *)
  trace : list Call
}.

Definition with_auth (f : AuthState -> AuthState) (w : World) : World :=
  mkWorld (f (auth w)) (form w) (localStorage w) (defaultPrevented w)
          (timers w) (trace w).
Definition with_form (f : FormState -> FormState) (w : World) : World :=
  mkWorld (auth w) (f (form w)) (localStorage w) (defaultPrevented w)
          (timers w) (trace w).
Definition with_localStorage
  (f : gmap jsstring jsstring -> gmap jsstring jsstring) (w : World) : World :=
  mkWorld (auth w) (form w) (f (localStorage w)) (defaultPrevented w)
          (timers w) (trace w).
Definition with_defaultPrevented (b : bool) (w : World) : World :=
  mkWorld (auth w) (form w) (localStorage w) b (timers w) (trace w).
Definition with_timers (f : list Timer -> list Timer) (w : World) : World :=
  mkWorld (auth w) (form w) (localStorage w) (defaultPrevented w)
          (f (timers w)) (trace w).
Definition record_call (c : Call) (w : World) : World :=
  mkWorld (auth w) (form w) (localStorage w) (defaultPrevented w)
          (timers w) (trace w ++ [c]).

(** ** Handlers as state transformers that may throw *)

(** The two exceptions the platform calls of this page can throw:
    [JSON.parse] on a text that is not JSON, and [localStorage.setItem] when
    the store refuses the write. *)
Inductive exn : Type := SyntaxError | QuotaExceededError.

Inductive completion (A : Type) : Type :=
| Normal (a : A)
| Throw (e : exn).
Arguments Normal {A} a.
Arguments Throw {A} e.

Definition M (A : Type) : Type := World -> completion A * World.

Definition ret {A} (a : A) : M A := fun w => (Normal a, w).
Definition throw {A} (e : exn) : M A := fun w => (Throw e, w).
Definition bind {A B} (m : M A) (k : A -> M B) : M B :=
  fun w =>
    match m w with
    | (Normal a, w') => k a w'
    | (Throw e, w') => (Throw e, w')
    end.
Definition perform (c : Call) (f : World -> World) : M unit :=
  fun w => (Normal tt, f (record_call c w)).
Definition read {A} (f : World -> A) : M A := fun w => (Normal (f w), w).

Declare Scope js_scope.
Delimit Scope js_scope with js.
Notation "x <- m ;; k" := (bind m (fun x => k))
  (at level 100, m at next level, k at level 200, right associativity) : js_scope.
Notation "m ;; k" := (bind m (fun _ => k))
  (at level 100, k at level 200, right associativity) : js_scope.
Local Open Scope js_scope.

(** The world a handler leaves behind and how it completed. *)
Definition world_after {A} (m : M A) (w : World) : World := snd (m w).
Definition outcome {A} (m : M A) (w : World) : completion A := fst (m w).

(** *** State setters of the two components *)

Definition setUser (v : jsval) : M unit :=
  perform (Call_setUser v)
    (with_auth (fun a => mkAuthState v (isLoading a) (showAuthModal a) (authView a))).
Definition setIsLoading (b : bool) : M unit :=
  perform (Call_setIsLoading b)
    (with_auth (fun a => mkAuthState (user a) b (showAuthModal a) (authView a))).
Definition setShowAuthModal (show : bool) : M unit :=
  perform (Call_setShowAuthModal show)
    (with_auth (fun a => mkAuthState (user a) (isLoading a) show (authView a))).
Definition setAuthView (view : AuthView) : M unit :=
  perform (Call_setAuthView view)
    (with_auth (fun a => mkAuthState (user a) (isLoading a) (showAuthModal a) view)).

Definition setEmail (s : jsstring) : M unit :=
  perform (Call_setEmail s)
    (with_form (fun f => mkFormState s (password f) (loading f))).
Definition setPassword (s : jsstring) : M unit :=
  perform (Call_setPassword s)
    (with_form (fun f => mkFormState (email f) s (loading f))).
Definition setLoading (b : bool) : M unit :=
  perform (Call_setLoading b)
    (with_form (fun f => mkFormState (email f) (password f) b)).

(** *** Platform calls *)

Definition localStorage_getItem (key : jsstring) : M (option jsstring) :=
  fun w => (Normal (localStorage w !! key), record_call (Call_getItem key) w).
Definition localStorage_removeItem (key : jsstring) : M unit :=
  perform (Call_removeItem key) (with_localStorage (delete key)).

Definition JSON_parse_call (text : jsstring) : M jsval :=
  match JSON_parse text with
  | Some v => ret v
  | None => throw SyntaxError
  end.

Definition preventDefault : M unit :=
  perform Call_preventDefault (with_defaultPrevented true).
Definition window_open (url target : jsstring) : M unit :=
  perform (Call_window_open url target) (fun w => w).
Definition setTimeout (t : Timer) : M unit :=
  perform (Call_setTimeout (delay t)) (with_timers (fun ts => ts ++ [t])).

(** ** AuthProvider *)

Definition viralAuditUser : jsstring := Eval cbv in js "viralAuditUser".
Definition email_key : jsstring := Eval cbv in js "email".
Definition name_key : jsstring := Eval cbv in js "name".

(** The session check that runs once when the provider mounts
    ([useEffect] with an empty dependency list). *)
Definition initialize : M unit :=
  storedUser <- localStorage_getItem viralAuditUser ;;
  match storedUser with
  | Some ((_ :: _) as text) => v <- JSON_parse_call text ;; setUser v
  | Some [] | None => ret tt
  end ;;
  setIsLoading false.

Definition logout : M unit :=
  setUser JNull ;;
  localStorage_removeItem viralAuditUser.

(** The state of a freshly created provider and form over a given store:
    the initial values passed to [useState]. *)
Definition initial (store : gmap jsstring jsstring) : World :=
  mkWorld (mkAuthState JNull true false view_signup)
          (mkFormState [] [] false)
          store false [] [].

(** ** Event dispatch *)

Definition begin_dispatch : M unit :=
  fun w => (Normal tt, with_defaultPrevented false w).

(** A click on [<a href=... target=... onClick=...>]: the handler runs, and
    unless it called [preventDefault] the browser follows the link. *)
Definition click_anchor (href : jsstring) (target : option jsstring)
  (onClick : M unit) : M unit :=
  begin_dispatch ;;
  onClick ;;
  prevented <- read defaultPrevented ;;
  if (prevented : bool) then ret tt else perform (Follow_link href target) (fun w => w).

(** A submission of [<form onSubmit=...>]: likewise, with the native
    submission as the default action. *)
Definition submit_form (onSubmit : M unit) : M unit :=
  begin_dispatch ;;
  onSubmit ;;
  prevented <- read defaultPrevented ;;
  if (prevented : bool) then ret tt else perform Submit_natively (fun w => w).

Definition install_url : jsstring := Eval cbv in js "https://google.com".
Definition _blank : jsstring := Eval cbv in js "_blank".
Definition hash_href : jsstring := Eval cbv in js "#".

(** ** Navbar *)
Module Navbar.

Definition handleInstallClick : M unit :=
  preventDefault ;;
  user <- read (fun w => user (auth w)) ;;
  if ToBoolean user then
    window_open install_url _blank
  else
    setAuthView view_signup ;;
    setShowAuthModal true.

(** The [onClick] of the Login button. *)
Definition onLoginClick : M unit :=
  setAuthView view_login ;; setShowAuthModal true.

End Navbar.

(** ** Hero *)
Module Hero.

Definition handleInstallClick : M unit :=
  preventDefault ;;
  user <- read (fun w => user (auth w)) ;;
  if ToBoolean user then
    window_open install_url _blank
  else
    setAuthView view_signup ;;
    setShowAuthModal true.

End Hero.

(** ** PricingCard *)
Module PricingCard.

Definition handleCheckout : M unit :=
  user <- read (fun w => user (auth w)) ;;
  if negb (ToBoolean user) then
    preventDefault ;;
    setAuthView view_signup ;;
    setShowAuthModal true
  else ret tt.

(** The card's anchor: [href={checkoutUrl} target="_blank"]. *)
Definition click (checkoutUrl : jsstring) : M unit :=
  click_anchor checkoutUrl (Some _blank) handleCheckout.

End PricingCard.

(** ** AuthModal *)
Module AuthModal.

(** [handleSubmit] up to its [await]: the closure variables [authView]
    and [email] are those of the render the form was submitted in. *)
Definition handleSubmit (authView : AuthView) (email : jsstring) : M unit :=
  preventDefault ;;
  setLoading true ;;
  setTimeout (mkTimer 1000 authView email).

(** [handleSubmit] from the [await] on, run when the timer elapses;
    [login] and [signup] are the operations the component takes from the
    context ([useAuth]). *)
Definition handleSubmit_resumed (login signup : jsstring -> M unit)
  (authView : AuthView) (email : jsstring) : M unit :=
  match authView with
  | view_login => login email
  | view_signup => signup email
  end ;;
  setLoading false ;;
  setEmail [] ;;
  setPassword [].

(** The submit button's [disabled={loading}]. *)
Definition submit_disabled (w : World) : bool := loading (form w).

(** The button under the form that switches between the two views. *)
Definition onSwitchClick : M unit :=
  view <- read (fun w => authView (auth w)) ;;
  match view with
  | view_login => setAuthView view_signup
  | view_signup => setAuthView view_login
  end.

End AuthModal.

(** ** The page as a transition system *)

Inductive Plan : Type := Starter | Professional.

Definition checkoutUrl (p : Plan) : jsstring :=
  match p with
  | Starter => js "https://example.com/checkout-starter"
  | Professional => js "https://example.com/checkout-pro"
  end.

Inductive UIEvent : Type :=
| Click_Navbar_Logout
| Click_Navbar_Login
| Click_Navbar_Install
| Click_Hero_Install
| Click_Pricing (p : Plan)
| Click_AuthModal_backdrop
| Click_AuthModal_close
| Click_AuthModal_switch
| Input_email (s : jsstring)
| Input_password (s : jsstring)
| Submit_AuthModal
| Timer_elapsed.

Definition nonempty {A} (l : list A) : bool :=
  match l with [] => false | _ :: _ => true end.

(** ** Two browsers to run the page in *)

(** A store that accepts every write, one that accepts none (a full store,
    or one with no quota), and a validation that asks an address for an at
    sign. *)
Definition unlimited (store : gmap jsstring jsstring) : bool := true.
Definition no_room (store : gmap jsstring jsstring) : bool := false.
Definition contains_at (s : jsstring) : bool := existsb (N.eqb 64) s.

(** ** What the browser decides *)

Section Page.

(** [fits store] tells whether [localStorage] accepts a write that leaves it
    holding [store] (otherwise [setItem] throws QuotaExceededError);
    [valid_email s] tells whether [s] satisfies the constraint validation of
    an [input] of [type="email"].  Both are the browser's, and every
    property below holds whatever they are. *)
Variable fits : gmap jsstring jsstring -> bool.
Variable valid_email : jsstring -> bool.

Definition localStorage_setItem (key value : jsstring) : M unit :=
  fun w =>
    let w' := record_call (Call_setItem key value) w in
    if fits (<[key := value]> (localStorage w)) then
      (Normal tt, with_localStorage (insert key value) w')
    else (Throw QuotaExceededError, w').

Definition login (email : jsstring) : M unit :=
  perform (Enter_login email) (fun w => w) ;;
  let newUser : record := [(email_key, email)] in
  setUser (record_value newUser) ;;
  localStorage_setItem viralAuditUser (JSON_stringify newUser) ;;
  setShowAuthModal false.

Definition signup (email : jsstring) : M unit :=
  perform (Enter_signup email) (fun w => w) ;;
  let newUser : record := [(email_key, email)] in
  setUser (record_value newUser) ;;
  localStorage_setItem viralAuditUser (JSON_stringify newUser) ;;
  setShowAuthModal false.

(** Which events the rendered page can deliver.  [Navbar] shows Logout
    only with a user and Login only without; [AuthModal] renders nothing
    unless [showAuthModal]; its fields are [required], the first is of
    [type="email"], and its submit button is [disabled] while [loading]. *)
Definition rendered (w : World) (e : UIEvent) : bool :=
  match e with
  | Click_Navbar_Logout => ToBoolean (user (auth w))
  | Click_Navbar_Login => negb (ToBoolean (user (auth w)))
  | Click_Navbar_Install | Click_Hero_Install | Click_Pricing _ => true
  | Click_AuthModal_backdrop | Click_AuthModal_close | Click_AuthModal_switch
  | Input_email _ | Input_password _ => showAuthModal (auth w)
  | Submit_AuthModal =>
      showAuthModal (auth w) && negb (AuthModal.submit_disabled w)
      && nonempty (email (form w)) && nonempty (password (form w))
      && valid_email (email (form w))
  | Timer_elapsed => nonempty (timers w)
  end.

Definition dispatch (e : UIEvent) : M unit :=
  match e with
  | Click_Navbar_Logout => logout
  | Click_Navbar_Login => Navbar.onLoginClick
  | Click_Navbar_Install => click_anchor hash_href None Navbar.handleInstallClick
  | Click_Hero_Install => click_anchor hash_href None Hero.handleInstallClick
  | Click_Pricing p => PricingCard.click (checkoutUrl p)
  | Click_AuthModal_backdrop | Click_AuthModal_close => setShowAuthModal false
  | Click_AuthModal_switch => AuthModal.onSwitchClick
  | Input_email s => setEmail s
  | Input_password s => setPassword s
  | Submit_AuthModal =>
      view <- read (fun w => authView (auth w)) ;;
      email <- read (fun w => email (form w)) ;;
      submit_form (AuthModal.handleSubmit view email)
  | Timer_elapsed =>
      fun w =>
        match timers w with
        | t :: ts =>
            AuthModal.handleSubmit_resumed login signup
              (closed_authView t) (closed_email t)
              (with_timers (fun _ => ts) w)
        | [] => (Normal tt, w)
        end
  end.

(** The states of the page, with whether the session check has run.  The
    page renders first; the check is an effect that runs once, after that
    render, and events can be delivered before it as well as after it.  A
    handler that throws leaves the state it had reached and the page goes
    on; another page of the same origin may rewrite the store at any
    time. *)
Inductive page : bool -> World -> Prop :=
| page_first_render store : page false (initial store)
| page_session_check w w' :
    page false w -> initialize w = (Normal tt, w') -> page true w'
| page_event checked w e c w' :
    page checked w -> rendered w e = true -> dispatch e w = (c, w') ->
    page checked w'
| page_storage checked w store :
    page checked w -> page checked (with_localStorage (fun _ => store) w).

Definition running (w : World) : Prop := exists checked, page checked w.

(** The operations [AuthProvider] hands to its consumers, and its own
    session check. *)
Inductive Operation : Type :=
| Op_initialize
| Op_login (email : jsstring)
| Op_signup (email : jsstring)
| Op_logout
| Op_setShowAuthModal (show : bool)
| Op_setAuthView (view : AuthView).

Definition run_operation (op : Operation) : M unit :=
  match op with
  | Op_initialize => initialize
  | Op_login email => login email
  | Op_signup email => signup email
  | Op_logout => logout
  | Op_setShowAuthModal show => setShowAuthModal show
  | Op_setAuthView view => setAuthView view
  end.




(** * Vocabulary of the properties *)

(** What [parse_string] does with one more decoded code unit in front. *)
Definition push (c : N) (o : option (jsstring * jsstring))
  : option (jsstring * jsstring) :=
  match o with
  | Some (str, rest) => Some (c :: str, rest)
  | None => None
  end.

(** How many times a handler cleared [isLoading], read off its trace. *)
Definition clears_isLoading (c : Call) : bool :=
  match c with
  | Call_setIsLoading false => true
  | _ => false
  end.

Fixpoint count (p : Call -> bool) (t : list Call) : nat :=
  match t with
  | [] => 0
  | c :: t' => (if p c then 1 else 0) + count p t'
  end.

(** The external navigations among a sequence of calls. *)
Definition navigation (c : Call) : option (jsstring * option jsstring) :=
  match c with
  | Call_window_open url target => Some (url, Some target)
  | Follow_link href target => Some (href, target)
  | _ => None
  end.

Definition navigations (t : list Call) : list (jsstring * option jsstring) :=
  omap navigation t.

(** The declared type of the [user] cell, [User | null], where
    [User = { email: string; name?: string }]. *)
Definition is_User (v : jsval) : bool :=
  match v with
  | JObj props =>
      match obj_get email_key props, obj_get name_key props with
      | Some (JStr _), (None | Some (JStr _)) => true
      | _, _ => false
      end
  | _ => false
  end.

Definition User_or_null (v : jsval) : Prop := v = JNull \/ is_User v = true.

(** The property of [initialize] as the specification words it: whatever
    the store holds, the check ends normally, [isLoading] has been cleared
    exactly once, and the session is the parsed record when there is a
    well-formed one and absent otherwise. *)
Definition initialize_never_fails (store : gmap jsstring jsstring) : Prop :=
  let w := world_after initialize (initial store) in
  outcome initialize (initial store) = Normal tt /\
  isLoading (auth w) = false /\
  count clears_isLoading (trace w) = 1%nat /\
  user (auth w) =
    match store !! viralAuditUser with
    | Some text =>
        match JSON_parse text with
        | Some v => v
        | None => JNull
        end
    | None => JNull
    end.

(** A store whose record is not JSON. *)
Definition malformed_store : gmap jsstring jsstring :=
  {[ viralAuditUser := js "{email:" ]}.

(** Whether the store accepts the record of an email. *)
Definition record_fits (email : jsstring) (w : World) : bool :=
  fits (<[viralAuditUser := JSON_stringify [(email_key, email)]]>
          (localStorage w)).

(** What both operations leave behind when the store accepts the record. *)
Definition signed_in (email : jsstring) (w w' : World) : Prop :=
  user (auth w') = JObj [(email_key, JStr email)] /\
  obj_get name_key [(email_key, JStr email)] = None /\
  localStorage w' =
    <[viralAuditUser := JSON_stringify [(email_key, email)]]> (localStorage w) /\
  (localStorage w' !! viralAuditUser) ≫= JSON_parse = Some (user (auth w')) /\
  showAuthModal (auth w') = false /\
  isLoading (auth w') = isLoading (auth w) /\
  authView (auth w') = authView (auth w).

(** What both operations leave behind when the store refuses the record:
    the session is set, nothing is stored and the dialog is as it was. *)
Definition sign_in_refused (email : jsstring) (w w' : World) : Prop :=
  user (auth w') = JObj [(email_key, JStr email)] /\
  localStorage w' = localStorage w /\
  showAuthModal (auth w') = showAuthModal (auth w) /\
  isLoading (auth w') = isLoading (auth w) /\
  authView (auth w') = authView (auth w).

(** The property of [login] and [signup] as the specification words it:
    the operation ends normally with the session set, the record stored and
    the dialog closed. *)
Definition sign_in_never_fails (op : jsstring -> M unit) (email : jsstring)
  (w : World) : Prop :=
  outcome (op email) w = Normal tt /\
  signed_in email w (world_after (op email) w).

(** The world a sign-in entered with [entry] leaves when the store accepts
    the record, and the one it leaves when [setItem] throws. *)
Definition accepted (entry : Call) (email : jsstring) (w : World) : World :=
  mkWorld
    (mkAuthState (JObj [(email_key, JStr email)]) (isLoading (auth w)) false
       (authView (auth w)))
    (form w)
    (<[viralAuditUser := JSON_stringify [(email_key, email)]]> (localStorage w))
    (defaultPrevented w) (timers w)
    (trace w ++
     [entry;
      Call_setUser (JObj [(email_key, JStr email)]);
      Call_setItem viralAuditUser (JSON_stringify [(email_key, email)]);
      Call_setShowAuthModal false]).

Definition refused (entry : Call) (email : jsstring) (w : World) : World :=
  mkWorld
    (mkAuthState (JObj [(email_key, JStr email)]) (isLoading (auth w))
       (showAuthModal (auth w)) (authView (auth w)))
    (form w) (localStorage w) (defaultPrevented w) (timers w)
    (trace w ++
     [entry;
      Call_setUser (JObj [(email_key, JStr email)]);
      Call_setItem viralAuditUser (JSON_stringify [(email_key, email)])]).

(** The calls of a trace without the markers of entry into [login] and
    [signup]. *)
Definition is_marker (c : Call) : bool :=
  match c with
  | Enter_login _ | Enter_signup _ => true
  | _ => false
  end.

Fixpoint primitive_calls (t : list Call) : list Call :=
  match t with
  | [] => []
  | c :: t' => if is_marker c then primitive_calls t' else c :: primitive_calls t'
  end.

(** The calls a handler adds to the trace. *)
Definition new_calls {A} (m : M A) (w : World) : list Call :=
  drop (length (trace w)) (trace (world_after m w)).

(** The world after a click that found no session: the default action
    prevented and the dialog opened on its signup view. *)
Definition intercepted (w : World) : World :=
  mkWorld
    (mkAuthState (user (auth w)) (isLoading (auth w)) true view_signup)
    (form w) (localStorage w) true (timers w)
    (trace w ++
     [Call_preventDefault; Call_setAuthView view_signup;
      Call_setShowAuthModal true]).

(** [user !== null] *)
Definition Session_present (w : World) : bool :=
  match user (auth w) with
  | JNull => false
  | _ => true
  end.

(** A click on a link to [url] is gated by a session: with one it
    navigates there and nowhere else and leaves the container alone;
    without one it navigates nowhere and opens the dialog on signup. *)
Definition gated (session : bool) (click : M unit) (url : jsstring)
  (w : World) : Prop :=
  outcome click w = Normal tt /\
  if session then
    navigations (new_calls click w) = [(url, Some _blank)] /\
    auth (world_after click w) = auth w
  else
    navigations (new_calls click w) = [] /\
    authView (auth (world_after click w)) = view_signup /\
    showAuthModal (auth (world_after click w)) = true /\
    user (auth (world_after click w)) = user (auth w).

(** The three kinds of gated link of the page. *)
Definition links_gated (session : bool) (checkoutUrl : jsstring) (w : World)
  : Prop :=
  gated session (click_anchor hash_href None Navbar.handleInstallClick)
    install_url w /\
  gated session (click_anchor hash_href None Hero.handleInstallClick)
    install_url w /\
  gated session (PricingCard.click checkoutUrl) checkoutUrl w.

(** A state with a session. *)
Definition alice : jsstring := Eval cbv in js "alice@example.com".
Definition signed_in_world : World := world_after (login alice) (initial ∅).

(** The same world with other values in the three flags. *)
Definition with_flags (l s : bool) (v : AuthView) (w : World) : World :=
  with_auth (fun a => mkAuthState (user a) l s v) w.

(** The values a sequence of calls writes to the store. *)
Definition store_write (c : Call) : option (jsstring * jsstring) :=
  match c with
  | Call_setItem key value => Some (key, value)
  | _ => None
  end.

Definition store_writes (t : list Call) : list (jsstring * jsstring) :=
  omap store_write t.

(** The marker of the operation [handleSubmit] chooses. *)
Definition Enter (view : AuthView) (address : jsstring) : Call :=
  match view with
  | view_login => Enter_login address
  | view_signup => Enter_signup address
  end.


(** At most one submission is waiting, and [loading] is set while one
    is. *)
Definition loading_while_waiting (w : World) : Prop :=
  match timers w with
  | [] => True
  | [_] => loading (form w) = true
  | _ :: _ :: _ => False
  end.



(** A visit to the page: it mounts over an empty store, the visitor clicks
    Install in the navigation bar, fills in the form and submits it, and
    the timer elapses. *)
Definition visit_mounted : World := world_after initialize (initial ∅).
Definition visit_dialog : World :=
  world_after (dispatch Click_Navbar_Install) visit_mounted.
Definition visit_filled : World :=
  world_after (dispatch (Input_password (js "secret")))
    (world_after (dispatch (Input_email alice)) visit_dialog).
Definition visit_submitted : World :=
  world_after (dispatch Submit_AuthModal) visit_filled.
Definition visit_signed_in : World :=
  world_after (dispatch Timer_elapsed) visit_submitted.

(** ** Runs of the page *)

(** Delivers the events in turn; [None] when one of them is not rendered
    in the state it would be delivered in, or its handler throws. *)
Fixpoint run_events (es : list UIEvent) (w : World) : option World :=
  match es with
  | [] => Some w
  | e :: es' =>
      if rendered w e then
        match dispatch e w with
        | (Normal _, w') => run_events es' w'
        | (Throw _, _) => None
        end
      else None
  end.

(** A visit with no other page writing to the store, in which the session
    check comes first and ends normally and every handler ends normally:
    the provider mounts over [store], and the events follow. *)
Definition visit (store : gmap jsstring jsstring) (es : list UIEvent)
  : option World :=
  match initialize (initial store) with
  | (Normal _, w) => run_events es w
  | (Throw _, _) => None
  end.

Definition is_timer (e : UIEvent) : bool :=
  match e with
  | Timer_elapsed => true
  | _ => false
  end.

Definition no_timer (es : list UIEvent) : bool :=
  forallb (fun e => negb (is_timer e)) es.

(** A reload over [store] ends its session check normally with session
    [v]. *)
Definition rehydrates_to (store : gmap jsstring jsstring) (v : jsval) : Prop :=
  outcome initialize (initial store) = Normal tt /\
  user (auth (world_after initialize (initial store))) = v.

(** What one event whose handler ends normally can do to the session and
    the store: nothing, what [logout] does, or what [login] and [signup]
    do. *)
Definition session_step (w w' : World) : Prop :=
  (user (auth w') = user (auth w) /\ localStorage w' = localStorage w) \/
  (user (auth w') = JNull /\
   localStorage w' = delete viralAuditUser (localStorage w)) \/
  (exists address,
      user (auth w') = JObj [(email_key, JStr address)] /\
      localStorage w' =
        <[viralAuditUser := JSON_stringify [(email_key, address)]]>
          (localStorage w)).

(** The call [handleSubmit] makes for a view. *)
Definition sign_in (view : AuthView) (address : jsstring) : M unit :=
  match view with
  | view_login => login address
  | view_signup => signup address
  end.

(** Two worlds with the same container state, store and form. *)
Definition same_page (w w' : World) : Prop :=
  auth w = auth w' /\ localStorage w = localStorage w' /\ form w = form w'.

(** The same world with another text in the password field. *)
Definition with_password (p : jsstring) (w : World) : World :=
  with_form (fun f => mkFormState (email f) p (loading f)) w.


(** What a sign-in whose write is refused does to them. *)
Definition session_step_refused (w w' : World) : Prop :=
  exists address,
    user (auth w') = JObj [(email_key, JStr address)] /\
    localStorage w' = localStorage w.

(** Two runs of the same events agree up to the text of the password
    field: both stop at the same event, or both end, in worlds that differ
    at most in that text. *)
Definition agree_up_to_password (r r' : option World) : Prop :=
  match r, r' with
  | Some w, Some w' => exists p, w' = with_password p w
  | None, None => True
  | _, _ => False
  end.

(** The funnel of a new visitor: Install, the form, the wait, and Install
    again. *)
Definition funnel (address pw : jsstring) : list UIEvent :=
  [Click_Hero_Install; Input_email address; Input_password pw;
   Submit_AuthModal; Timer_elapsed; Click_Hero_Install].

(** * Properties of the JSON functions *)

Section JSON_facts.

Lemma skip_ws_length (s : jsstring) : (length (skip_ws s) <= length s)%nat.
Proof.
  induction s as [|c r IH]; simpl; [lia|].
  destruct (is_ws c); simpl; lia.
Qed.

Lemma hexval_hexchar (d : N) : d < 16 -> hexval (hexchar d) = Some d.
Proof.
  intros Hd. unfold hexval, hexchar, is_digit.
  destruct (N.ltb_spec d 10) as [Hlt|Hge].
  - replace (48 <=? 48 + d) with true by (symmetry; apply N.leb_le; lia).
    replace (48 + d <=? 57) with true by (symmetry; apply N.leb_le; lia).
    simpl. f_equal. lia.
  - replace (87 + d <=? 57) with false by (symmetry; apply N.leb_gt; lia).
    rewrite andb_false_r.
    replace (97 <=? 87 + d) with true by (symmetry; apply N.leb_le; lia).
    replace (87 + d <=? 102) with true by (symmetry; apply N.leb_le; lia).
    simpl. f_equal. lia.
Qed.

Lemma hex4_digits (c : N) :
  c < 65536 ->
  hex4 (hexchar ((c / 4096) mod 16)) (hexchar ((c / 256) mod 16))
       (hexchar ((c / 16) mod 16)) (hexchar (c mod 16)) = Some c.
Proof.
  intros Hc. unfold hex4.
  rewrite !hexval_hexchar by (apply N.mod_upper_bound; lia).
  f_equal.
  replace (c / 4096) with (c / 16 / 16 / 16)
    by (rewrite !N.Div0.div_div; reflexivity).
  replace (c / 256) with (c / 16 / 16)
    by (rewrite !N.Div0.div_div; reflexivity).
  assert (c / 16 / 16 / 16 < 16) as Hq.
  { rewrite !N.Div0.div_div. apply N.Div0.div_lt_upper_bound. simpl. lia. }
  rewrite (N.mod_small (c / 16 / 16 / 16) 16) by exact Hq.
  pose proof (N.div_mod c 16 ltac:(lia)) as H0.
  pose proof (N.div_mod (c / 16) 16 ltac:(lia)) as H1.
  pose proof (N.div_mod (c / 16 / 16) 16 ltac:(lia)) as H2.
  lia.
Qed.

Lemma parse_string_raw (c : N) (tail : jsstring) :
  c <> QUOTE -> c <> BACKSLASH -> 32 <= c ->
  parse_string (c :: tail) = push c (parse_string tail).
Proof.
  intros Hq Hb Hc. simpl.
  destruct (N.eqb_spec c QUOTE); [contradiction|].
  destruct (N.eqb_spec c BACKSLASH); [contradiction|].
  destruct (N.ltb_spec c 32); [lia|]. reflexivity.
Qed.

Lemma parse_string_UnicodeEscape (c : N) (tail : jsstring) :
  c < 65536 ->
  parse_string (UnicodeEscape c ++ tail) = push c (parse_string tail).
Proof.
  intros Hc. unfold UnicodeEscape.
  change (parse_string (?l ++ tail)) with
    (match hex4 (hexchar ((c / 4096) mod 16)) (hexchar ((c / 256) mod 16))
                (hexchar ((c / 16) mod 16)) (hexchar (c mod 16)) with
     | Some u => push u (parse_string tail)
     | None => None
     end).
  rewrite hex4_digits by exact Hc. reflexivity.
Qed.

Lemma parse_string_quote_unit (c : N) (tail : jsstring) :
  is_leading_surrogate c = false ->
  parse_string (quote_unit c ++ tail) = push c (parse_string tail).
Proof.
  intros Hlead. unfold quote_unit.
  destruct (N.eqb_spec c 8) as [->|H8]; [reflexivity|].
  destruct (N.eqb_spec c 9) as [->|H9]; [reflexivity|].
  destruct (N.eqb_spec c 10) as [->|H10]; [reflexivity|].
  destruct (N.eqb_spec c 12) as [->|H12]; [reflexivity|].
  destruct (N.eqb_spec c 13) as [->|H13]; [reflexivity|].
  destruct (N.eqb_spec c QUOTE) as [->|Hq]; [reflexivity|].
  destruct (N.eqb_spec c BACKSLASH) as [->|Hb]; [reflexivity|].
  rewrite Hlead, orb_false_r.
  destruct (N.ltb_spec c 32) as [Hlt|Hge]; simpl.
  - apply parse_string_UnicodeEscape. lia.
  - destruct (is_trailing_surrogate c) eqn:Htrail.
    + apply parse_string_UnicodeEscape.
      unfold is_trailing_surrogate in Htrail.
      apply andb_true_iff in Htrail as [_ Hhi]. apply N.leb_le in Hhi. lia.
    + apply parse_string_raw; assumption.
Qed.

Lemma quote_units_cons (c : N) (r : jsstring) :
  quote_units (c :: r) =
  if is_leading_surrogate c then
    match r with
    | d :: r' =>
        if is_trailing_surrogate d then c :: d :: quote_units r'
        else UnicodeEscape c ++ quote_units r
    | [] => UnicodeEscape c
    end
  else quote_unit c ++ quote_units r.
Proof. reflexivity. Qed.

(** The parser reads back what [QuoteJSONString] wrote, up to the closing
    quote, whatever follows it. *)
Lemma parse_string_quote_units (s rest : jsstring) :
  parse_string (quote_units s ++ QUOTE :: rest) = Some (s, rest).
Proof.
  remember (length s) as n eqn:Hn.
  revert s Hn. induction (lt_wf n) as [n _ IH]. intros s Hn.
  destruct s as [|c r]; [reflexivity|].
  rewrite quote_units_cons.
  destruct (is_leading_surrogate c) eqn:Hlead.
  - assert (55296 <= c <= 56319) as Hc.
    { unfold is_leading_surrogate in Hlead.
      apply andb_true_iff in Hlead as [H1 H2].
      apply N.leb_le in H1, H2. lia. }
    destruct r as [|d r'].
    + rewrite parse_string_UnicodeEscape by lia. reflexivity.
    + destruct (is_trailing_surrogate d) eqn:Htrail.
      * assert (56320 <= d <= 57343) as Hd.
        { unfold is_trailing_surrogate in Htrail.
          apply andb_true_iff in Htrail as [H1 H2].
          apply N.leb_le in H1, H2. lia. }
        rewrite <- !app_comm_cons.
        rewrite parse_string_raw by (unfold QUOTE, BACKSLASH; lia).
        rewrite parse_string_raw by (unfold QUOTE, BACKSLASH; lia).
        rewrite (IH (length r') ltac:(simpl in Hn; lia) r' eq_refl).
        reflexivity.
      * rewrite <- app_assoc.
        rewrite parse_string_UnicodeEscape by lia.
        rewrite (IH (length (d :: r')) ltac:(simpl in *; lia) (d :: r') eq_refl).
        reflexivity.
  - rewrite <- app_assoc.
    rewrite parse_string_quote_unit by exact Hlead.
    rewrite (IH (length r) ltac:(simpl in Hn; lia) r eq_refl).
    reflexivity.
Qed.

Lemma parse_value_QuoteJSONString (f : nat) (s rest : jsstring) :
  parse_value (S f) (QuoteJSONString s ++ rest) = POk (JStr s) rest.
Proof.
  unfold QuoteJSONString. rewrite <- app_comm_cons, <- app_assoc.
  cbn [parse_value].
  change (QUOTE =? LBRACE) with false. change (QUOTE =? LBRACKET) with false.
  change (QUOTE =? QUOTE) with true. cbn iota.
  change ([QUOTE] ++ rest) with (QUOTE :: rest).
  rewrite parse_string_quote_units. reflexivity.
Qed.

Lemma parse_members_one (f : nat) (k v rest : jsstring)
  (acc : list (jsstring * jsval)) :
  parse_members (S (S f))
    (QuoteJSONString k ++ COLON :: QuoteJSONString v ++ RBRACE :: rest) acc
  = POk (JObj (obj_set k (JStr v) acc)) rest.
Proof.
  cbn [parse_members].
  unfold QuoteJSONString at 1. rewrite <- app_comm_cons, <- app_assoc.
  change (skip_ws (QUOTE :: ?x)) with (QUOTE :: x).
  change (QUOTE =? QUOTE) with true. cbn iota.
  change ([QUOTE] ++ ?x) with (QUOTE :: x).
  rewrite parse_string_quote_units.
  change (skip_ws (COLON :: ?x)) with (COLON :: x).
  change (COLON =? COLON) with true. cbn iota.
  unfold QuoteJSONString at 1. rewrite <- app_comm_cons.
  change (skip_ws (QUOTE :: ?x)) with (QUOTE :: x).
  change (QUOTE :: ?x ++ RBRACE :: rest)
    with (QuoteJSONString v ++ RBRACE :: rest).
  rewrite parse_value_QuoteJSONString.
  reflexivity.
Qed.

(** [JSON.parse] undoes [JSON.stringify] on an object with one
    string-valued property. *)
Lemma JSON_parse_stringify_one (k v : jsstring) :
  JSON_parse (JSON_stringify [(k, v)]) = Some (record_value [(k, v)]).
Proof.
  unfold JSON_parse, parse_text.
  assert (exists f, parse_fuel (JSON_stringify [(k, v)]) = S (S (S f)))
    as [f Hf].
  { exists (2 * length (JSON_stringify [(k, v)]) - 2)%nat.
    unfold parse_fuel, JSON_stringify. simpl length. lia. }
  rewrite Hf. clear Hf.
  unfold JSON_stringify. cbn [serialize_properties].
  rewrite app_nil_r.
  change (skip_ws (LBRACE :: ?x)) with (LBRACE :: x).
  cbn [parse_value]. change (LBRACE =? LBRACE) with true. cbn iota.
  rewrite <- app_assoc, <- app_comm_cons.
  set (body := COLON :: QuoteJSONString v ++ [RBRACE]).
  unfold QuoteJSONString at 1. rewrite <- app_comm_cons.
  change (skip_ws (QUOTE :: ?x)) with (QUOTE :: x). cbn iota.
  change (QUOTE =? RBRACE) with false. cbn iota.
  change (QUOTE :: (quote_units k ++ [QUOTE]) ++ body)
    with (QuoteJSONString k ++ body).
  subst body. rewrite parse_members_one. reflexivity.
Qed.

(** *** The fuel of the parser is never exhausted *)

Lemma parse_string_length (s str rest : jsstring) :
  parse_string s = Some (str, rest) -> (length rest < length s)%nat.
Proof.
  remember (length s) as n eqn:Hn.
  revert s str rest Hn. induction (lt_wf n) as [n _ IH].
  intros s str rest Hn H. subst n.
  destruct s as [|c r]; [discriminate|]. simpl in H.
  destruct (c =? QUOTE).
  { injection H as _ <-. simpl. lia. }
  destruct (c =? BACKSLASH).
  - destruct r as [|e r']; [discriminate|].
    destruct (e =? 117).
    + destruct r' as [|h1 [|h2 [|h3 [|h4 r'']]]]; try discriminate.
      destruct (hex4 h1 h2 h3 h4); [|discriminate].
      destruct (parse_string r'') as [[str' rest']|] eqn:Hrec; [|discriminate].
      injection H as _ <-.
      pose proof (IH (length r'') ltac:(simpl; lia) r'' _ _ eq_refl Hrec).
      simpl. lia.
    + destruct (unescape e); [|discriminate].
      destruct (parse_string r') as [[str' rest']|] eqn:Hrec; [|discriminate].
      injection H as _ <-.
      pose proof (IH (length r') ltac:(simpl; lia) r' _ _ eq_refl Hrec).
      simpl. lia.
  - destruct (c <? 32); [discriminate|].
    destruct (parse_string r) as [[str' rest']|] eqn:Hrec; [|discriminate].
    injection H as _ <-.
    pose proof (IH (length r) ltac:(simpl; lia) r _ _ eq_refl Hrec).
    simpl. lia.
Qed.

Lemma span_digits_length (s : jsstring) (ds : list N) (rest : jsstring) :
  span_digits s = (ds, rest) -> (length rest <= length s)%nat.
Proof.
  revert ds rest. induction s as [|c r IH]; intros ds rest H; simpl in H.
  - injection H as _ <-. simpl. lia.
  - destruct (is_digit c).
    + destruct (span_digits r) as [ds' r'] eqn:Hrec.
      injection H as _ <-. specialize (IH _ _ eq_refl). simpl. lia.
    + injection H as _ <-. lia.
Qed.

Lemma strip_prefix_length (p s rest : jsstring) :
  strip_prefix p s = Some rest -> (length rest <= length s)%nat.
Proof.
  revert s. induction p as [|a p IH]; intros s H; simpl in H.
  - injection H as <-. lia.
  - destruct s as [|b s']; [discriminate|].
    destruct (a =? b); [|discriminate].
    specialize (IH _ H). simpl. lia.
Qed.

Lemma parse_literal_length (s : jsstring) (v : jsval) (rest : jsstring) :
  parse_literal s = Some (v, rest) -> (length rest <= length s)%nat.
Proof.
  unfold parse_literal. intros H.
  destruct (strip_prefix (js "true") s) eqn:H1.
  { injection H as _ <-. eauto using strip_prefix_length. }
  destruct (strip_prefix (js "false") s) eqn:H2.
  { injection H as _ <-. eauto using strip_prefix_length. }
  destruct (strip_prefix (js "null") s) eqn:H3; [|discriminate].
  injection H as _ <-. eauto using strip_prefix_length.
Qed.

Ltac span_bounds :=
  repeat match goal with
    | H : span_digits ?x = (_, _) |- _ =>
        apply span_digits_length in H
    end.

Ltac split_match H :=
  match type of H with
  | context [match ?x with _ => _ end] =>
      lazymatch x with
      | context [match _ with _ => _ end] => fail
      | _ => destruct x eqn:?
      end
  end.

Lemma parse_number_length (s : jsstring) (v : jsval) (rest : jsstring) :
  parse_number s = Some (v, rest) -> (length rest <= length s)%nat.
Proof.
  unfold parse_number. intros H.
  repeat (first [discriminate H | split_match H];
          repeat match goal with
            | E : (_, _) = (_, _) |- _ => injection E as ? ?
            | E : Some _ = Some _ |- _ => injection E as ?
            | E : Some _ = None |- _ => discriminate E
            | E : None = Some _ |- _ => discriminate E
            end; subst).
  all: span_bounds; simpl in *; lia.
Qed.

Lemma of_option_length (o : option (jsval * jsstring)) (s : jsstring)
  (v : jsval) (rest : jsstring) :
  (forall v' r', o = Some (v', r') -> (length r' <= length s)%nat) ->
  of_option o = POk v rest -> (length rest <= length s)%nat.
Proof.
  intros Hle H. destruct o as [[v' r']|]; [|discriminate].
  injection H as _ <-. eauto.
Qed.

(** A successful parse leaves a suffix no longer than its input. *)
Lemma parse_rest_length (fuel : nat) :
  (forall s v rest,
      parse_value fuel s = POk v rest -> (length rest <= length s)%nat) /\
  (forall s acc v rest,
      parse_elements fuel s acc = POk v rest ->
      (length rest <= length s)%nat) /\
  (forall s acc v rest,
      parse_members fuel s acc = POk v rest ->
      (length rest <= length s)%nat).
Proof.
  induction fuel as [|f (IHv & IHe & IHm)].
  { repeat split; intros; discriminate. }
  repeat split.
  - intros s v rest H. cbn [parse_value] in H.
    destruct s as [|c r]; [discriminate|].
    destruct (c =? LBRACE).
    { pose proof (skip_ws_length r) as Hws.
      destruct (skip_ws r) as [|c' r'] eqn:Hs; [discriminate|].
      destruct (c' =? RBRACE).
      - injection H as _ <-. simpl in *. lia.
      - apply IHm in H. simpl in *. lia. }
    destruct (c =? LBRACKET).
    { pose proof (skip_ws_length r) as Hws.
      destruct (skip_ws r) as [|c' r'] eqn:Hs; [discriminate|].
      destruct (c' =? RBRACKET).
      - injection H as _ <-. simpl in *. lia.
      - apply IHe in H. simpl in *. lia. }
    destruct (c =? QUOTE).
    { destruct (parse_string r) as [[str r1]|] eqn:Hstr; [|discriminate].
      injection H as _ <-. apply parse_string_length in Hstr. simpl. lia. }
    destruct ((c =? MINUS) || is_digit c).
    + eapply of_option_length; [|exact H].
      intros v' r'. apply parse_number_length.
    + eapply of_option_length; [|exact H].
      intros v' r'. apply parse_literal_length.
  - intros s acc v rest H. cbn [parse_elements] in H.
    pose proof (skip_ws_length s) as Hws.
    destruct (parse_value f (skip_ws s)) as [v1 r1| |] eqn:Hv;
      try discriminate.
    apply IHv in Hv. pose proof (skip_ws_length r1) as Hws1.
    destruct (skip_ws r1) as [|c r'] eqn:Hs; [discriminate|].
    destruct (c =? COMMA).
    { apply IHe in H. simpl in *. lia. }
    destruct (c =? RBRACKET); [|discriminate].
    injection H as _ <-. simpl in *. lia.
  - intros s acc v rest H. cbn [parse_members] in H.
    pose proof (skip_ws_length s) as Hws.
    destruct (skip_ws s) as [|q r0] eqn:Hs0; [discriminate|].
    destruct (q =? QUOTE); [|discriminate].
    destruct (parse_string r0) as [[k r1]|] eqn:Hk; [|discriminate].
    apply parse_string_length in Hk.
    pose proof (skip_ws_length r1) as Hws1.
    destruct (skip_ws r1) as [|c1 r2] eqn:Hs1; [discriminate|].
    destruct (c1 =? COLON); [|discriminate].
    pose proof (skip_ws_length r2) as Hws2.
    destruct (parse_value f (skip_ws r2)) as [v1 r3| |] eqn:Hv;
      try discriminate.
    apply IHv in Hv. pose proof (skip_ws_length r3) as Hws3.
    destruct (skip_ws r3) as [|c r'] eqn:Hs3; [discriminate|].
    destruct (c =? COMMA).
    { apply IHm in H. simpl in *. lia. }
    destruct (c =? RBRACE); [|discriminate].
    injection H as _ <-. simpl in *. lia.
Qed.

Lemma of_option_fuel (o : option (jsval * jsstring)) : of_option o <> PFuel.
Proof. destruct o as [[? ?]|]; discriminate. Qed.

(** Two units of fuel for each code unit of the input suffice. *)
Lemma parse_fuel_suffices (fuel : nat) :
  (forall s, (2 * length s + 1 <= fuel)%nat -> parse_value fuel s <> PFuel) /\
  (forall s acc,
      (2 * length s + 2 <= fuel)%nat -> parse_elements fuel s acc <> PFuel) /\
  (forall s acc,
      (2 * length s + 2 <= fuel)%nat -> parse_members fuel s acc <> PFuel).
Proof.
  induction fuel as [|f (IHv & IHe & IHm)].
  { repeat split; intros; lia. }
  repeat split.
  - intros s Hf. cbn [parse_value].
    destruct s as [|c r]; [discriminate|].
    pose proof (skip_ws_length r) as Hws.
    destruct (c =? LBRACE).
    { destruct (skip_ws r) as [|c' r'] eqn:Hs; [discriminate|].
      destruct (c' =? RBRACE); [discriminate|].
      apply IHm. simpl in *. lia. }
    destruct (c =? LBRACKET).
    { destruct (skip_ws r) as [|c' r'] eqn:Hs; [discriminate|].
      destruct (c' =? RBRACKET); [discriminate|].
      apply IHe. simpl in *. lia. }
    destruct (c =? QUOTE).
    { destruct (parse_string r) as [[str r1]|]; discriminate. }
    destruct ((c =? MINUS) || is_digit c); apply of_option_fuel.
  - intros s acc Hf. cbn [parse_elements].
    pose proof (skip_ws_length s) as Hws.
    pose proof (IHv (skip_ws s) ltac:(lia)) as Hv.
    destruct (parse_value f (skip_ws s)) as [v1 r1| |] eqn:Hp;
      [|discriminate|contradiction].
    apply (proj1 (parse_rest_length f)) in Hp.
    pose proof (skip_ws_length r1) as Hws1.
    destruct (skip_ws r1) as [|c r'] eqn:Hs; [discriminate|].
    destruct (c =? COMMA).
    { apply IHe. simpl in *. lia. }
    destruct (c =? RBRACKET); discriminate.
  - intros s acc Hf. cbn [parse_members].
    pose proof (skip_ws_length s) as Hws.
    destruct (skip_ws s) as [|q r0] eqn:Hs0; [discriminate|].
    destruct (q =? QUOTE); [|discriminate].
    destruct (parse_string r0) as [[k r1]|] eqn:Hk; [|discriminate].
    apply parse_string_length in Hk.
    pose proof (skip_ws_length r1) as Hws1.
    destruct (skip_ws r1) as [|c1 r2] eqn:Hs1; [discriminate|].
    destruct (c1 =? COLON); [|discriminate].
    pose proof (skip_ws_length r2) as Hws2.
    pose proof (IHv (skip_ws r2) ltac:(simpl in *; lia)) as Hv.
    destruct (parse_value f (skip_ws r2)) as [v1 r3| |] eqn:Hp;
      [|discriminate|contradiction].
    apply (proj1 (parse_rest_length f)) in Hp.
    pose proof (skip_ws_length r3) as Hws3.
    destruct (skip_ws r3) as [|c r'] eqn:Hs3; [discriminate|].
    destruct (c =? COMMA).
    { apply IHm. simpl in *. lia. }
    destruct (c =? RBRACE); discriminate.
Qed.

(** [JSON_parse] answers [None] only for a text the grammar rejects:
    the parser never stops for lack of fuel. *)
Lemma JSON_parse_fuel_enough (s : jsstring) :
  parse_text (parse_fuel s) s <> PFuel.
Proof.
  unfold parse_text, parse_fuel.
  pose proof (skip_ws_length s) as Hws.
  pose proof (proj1 (parse_fuel_suffices (S (2 * length s))) (skip_ws s)
                ltac:(lia)) as Hv.
  destruct (parse_value (S (2 * length s)) (skip_ws s)) as [v r| |];
    [|discriminate|contradiction].
  destruct (skip_ws r); discriminate.
Qed.

(** A parse that did not stop for lack of fuel gives the same result with
    any larger amount. *)
Lemma parse_fuel_monotone (fuel : nat) :
  (forall s res,
      parse_value fuel s = res -> res <> PFuel ->
      forall fuel', (fuel <= fuel')%nat -> parse_value fuel' s = res) /\
  (forall s acc res,
      parse_elements fuel s acc = res -> res <> PFuel ->
      forall fuel', (fuel <= fuel')%nat -> parse_elements fuel' s acc = res) /\
  (forall s acc res,
      parse_members fuel s acc = res -> res <> PFuel ->
      forall fuel', (fuel <= fuel')%nat -> parse_members fuel' s acc = res).
Proof.
  induction fuel as [|f (IHv & IHe & IHm)].
  { repeat split; intros; subst; contradiction. }
  repeat split.
  - intros s res H Hne [|f'] Hle; [lia|]. cbn [parse_value] in *.
    destruct s as [|c r]; [assumption|].
    destruct (c =? LBRACE).
    { destruct (skip_ws r) as [|c' r']; [assumption|].
      destruct (c' =? RBRACE); [assumption|].
      apply (IHm _ _ _ H Hne). lia. }
    destruct (c =? LBRACKET).
    { destruct (skip_ws r) as [|c' r']; [assumption|].
      destruct (c' =? RBRACKET); [assumption|].
      apply (IHe _ _ _ H Hne). lia. }
    assumption.
  - intros s acc res H Hne [|f'] Hle; [lia|]. cbn [parse_elements] in *.
    destruct (parse_value f (skip_ws s)) as [v1 r1| |] eqn:Hv;
      [| |subst; contradiction];
      rewrite (IHv _ _ Hv ltac:(discriminate) f' ltac:(lia)); [|assumption].
    destruct (skip_ws r1) as [|c r']; [assumption|].
    destruct (c =? COMMA); [|assumption].
    apply (IHe _ _ _ H Hne). lia.
  - intros s acc res H Hne [|f'] Hle; [lia|]. cbn [parse_members] in *.
    destruct (skip_ws s) as [|q r0]; [assumption|].
    destruct (q =? QUOTE); [|assumption].
    destruct (parse_string r0) as [[k r1]|]; [|assumption].
    destruct (skip_ws r1) as [|c1 r2]; [assumption|].
    destruct (c1 =? COLON); [|assumption].
    destruct (parse_value f (skip_ws r2)) as [v1 r3| |] eqn:Hv;
      [| |subst; contradiction];
      rewrite (IHv _ _ Hv ltac:(discriminate) f' ltac:(lia)); [|assumption].
    destruct (skip_ws r3) as [|c r']; [assumption|].
    destruct (c =? COMMA); [|assumption].
    apply (IHm _ _ _ H Hne). lia.
Qed.

(** The result of [JSON_parse] does not depend on the amount of fuel, as
    long as it is at least [parse_fuel]. *)
Lemma JSON_parse_fuel_irrelevant (s : jsstring) (fuel : nat) :
  (parse_fuel s <= fuel)%nat ->
  parse_text fuel s = parse_text (parse_fuel s) s.
Proof.
  intros Hle. pose proof (JSON_parse_fuel_enough s) as Hne.
  unfold parse_text in *.
  destruct (parse_value (parse_fuel s) (skip_ws s)) as [v r| |] eqn:Hv;
    [| |contradiction];
    rewrite (proj1 (parse_fuel_monotone (parse_fuel s)) _ _ Hv
               ltac:(discriminate) fuel Hle);
    reflexivity.
Qed.

(** *** The functions on concrete texts *)

Example JSON_parse_nested :
  JSON_parse (js " [1, 2.50e-3, true, null, {}, [] ] ") =
  Some (JArr [JNum false 1 0; JNum false 250 (-5); JBool true; JNull;
              JObj []; JArr []]).
Proof. vm_compute. reflexivity. Qed.

Example JSON_parse_object :
  JSON_parse (LBRACE :: QuoteJSONString (js "a") ++ COLON :: js "-0" ++
              COMMA :: QuoteJSONString (js "a") ++ COLON :: js "false}") =
  Some (JObj [(js "a", JBool false)]).
Proof. vm_compute. reflexivity. Qed.

Example JSON_parse_rejects :
  map JSON_parse
    [js ""; js "{"; js "01"; js "1."; js "[1,]"; js "nul"; js "null x";
     js "+1"; js "-"; js "1e"; js "{1:2}"; js "tru e"] =
  [None; None; None; None; None; None; None; None; None; None; None; None].
Proof. vm_compute. reflexivity. Qed.

Example JSON_parse_falsy :
  map (option_map ToBoolean ∘ JSON_parse)
    [js "null"; js "0"; js "false"; js "-0.0e5"; js "1"; js "[]"; js "{}"] =
  [Some false; Some false; Some false; Some false; Some true; Some true;
   Some true].
Proof. vm_compute. reflexivity. Qed.

Example JSON_stringify_email :
  JSON_stringify [(email_key, js "a@b.com")] =
  [123; 34; 101; 109; 97; 105; 108; 34; 58; 34; 97; 64; 98; 46; 99; 111; 109;
   34; 125].
Proof. vm_compute. reflexivity. Qed.

(** A quote, a backslash, a line feed, a control character, a surrogate
    pair, a lone trailing and a lone leading surrogate. *)
Example QuoteJSONString_escapes :
  QuoteJSONString [34; 92; 10; 1; 55357; 56832; 56320; 55296] =
  [34] ++ js "\" ++ [34] ++ js "\\\n\u0001" ++ [55357; 56832] ++
  js "\udc00\ud800" ++ [34].
Proof. vm_compute. reflexivity. Qed.

End JSON_facts.
(** * Properties of the session container *)

Arguments JSON_stringify : simpl never.
Arguments JSON_parse : simpl never.


(** ** initialize *)

Lemma malformed_store_lookup :
  malformed_store !! viralAuditUser = Some (js "{email:").
Proof. apply lookup_singleton_eq. Qed.

Lemma initialize_unfold (store : gmap jsstring jsstring) :
  initialize (initial store) =
  let w0 := record_call (Call_getItem viralAuditUser) (initial store) in
  match store !! viralAuditUser with
  | Some ((_ :: _) as text) =>
      match JSON_parse text with
      | Some v => (setUser v ;; setIsLoading false) w0
      | None => (Throw SyntaxError, w0)
      end
  | Some [] | None => setIsLoading false w0
  end.
Proof.
  unfold initialize, bind, localStorage_getItem. cbn [localStorage initial].
  destruct (store !! viralAuditUser) as [[|c text]|]; try reflexivity.
  unfold JSON_parse_call. destruct (JSON_parse (c :: text)); reflexivity.
Qed.

Lemma JSON_parse_malformed : JSON_parse (js "{email:") = None.
Proof. vm_compute. reflexivity. Qed.

(** C1, as stated, fails: over a store whose record is not JSON the
    session check throws SyntaxError, [isLoading] is still true afterwards
    and was never cleared. *)
Lemma initialize_malformed_throws :
  outcome initialize (initial malformed_store) = Throw SyntaxError /\
  isLoading (auth (world_after initialize (initial malformed_store))) = true /\
  count clears_isLoading
    (trace (world_after initialize (initial malformed_store))) = 0%nat /\
  ~ initialize_never_fails malformed_store.
Proof.
  assert (initialize (initial malformed_store) =
          (Throw SyntaxError,
           record_call (Call_getItem viralAuditUser) (initial malformed_store)))
    as Heq.
  { rewrite initialize_unfold, malformed_store_lookup.
    cbv zeta. change (js "{email:") with (123 :: js "email:").
    cbv iota beta. change (123 :: js "email:") with (js "{email:").
    rewrite JSON_parse_malformed. reflexivity. }
  unfold initialize_never_fails, outcome, world_after. rewrite Heq.
  cbn [fst snd]. repeat split; try reflexivity.
  intros [Hout _]. discriminate Hout.
Qed.

(** C1 (amended): the session check ends normally, with [isLoading]
    cleared exactly once, whenever [JSON.parse] does not throw: with no
    record or an empty one the session stays absent, with a text that
    parses the session is its value.  Over a non-empty text that is not
    JSON the check throws SyntaxError before it clears [isLoading], and the
    session stays absent. *)
Theorem initialize_checks_session (store : gmap jsstring jsstring) :
  let w := world_after initialize (initial store) in
  let ended_normally (v : jsval) :=
    outcome initialize (initial store) = Normal tt /\
    user (auth w) = v /\
    isLoading (auth w) = false /\
    count clears_isLoading (trace w) = 1%nat in
  match store !! viralAuditUser with
  | None | Some [] => ended_normally JNull
  | Some text =>
      match JSON_parse text with
      | Some v => ended_normally v
      | None =>
          outcome initialize (initial store) = Throw SyntaxError /\
          user (auth w) = JNull /\
          isLoading (auth w) = true /\
          count clears_isLoading (trace w) = 0%nat
      end
  end.
Proof.
  cbv zeta. unfold outcome, world_after. rewrite initialize_unfold. cbv zeta.
  destruct (store !! viralAuditUser) as [[|c text]|].
  - repeat split.
  - destruct (JSON_parse (c :: text)); repeat split.
  - repeat split.
Qed.

(** ** login, signup, logout *)

(** Runs a handler made of the primitive calls on a symbolic world. *)
Ltac run_handler :=
  unfold bind, read, ret, setUser, setIsLoading, setShowAuthModal, setAuthView,
    setEmail, setPassword, setLoading, localStorage_setItem,
    localStorage_removeItem, preventDefault, window_open, setTimeout,
    begin_dispatch, perform, with_auth, with_form, with_localStorage,
    with_defaultPrevented, with_timers, record_call, record_value;
  cbn -[insert delete JSON_stringify ToBoolean];
  rewrite <- ?app_assoc; cbn [app].

Lemma login_world (email : jsstring) (w : World) :
  login email w =
  if record_fits email w then
    (Normal tt, accepted (Enter_login email) email w)
  else (Throw QuotaExceededError, refused (Enter_login email) email w).
Proof.
  unfold login, record_fits, accepted, refused. run_handler.
  destruct (fits _); run_handler; reflexivity.
Qed.

Lemma signup_world (email : jsstring) (w : World) :
  signup email w =
  if record_fits email w then
    (Normal tt, accepted (Enter_signup email) email w)
  else (Throw QuotaExceededError, refused (Enter_signup email) email w).
Proof.
  unfold signup, record_fits, accepted, refused. run_handler.
  destruct (fits _); run_handler; reflexivity.
Qed.

Lemma logout_world (w : World) :
  logout w =
  (Normal tt,
   mkWorld
     (mkAuthState JNull (isLoading (auth w)) (showAuthModal (auth w))
        (authView (auth w)))
     (form w)
     (delete viralAuditUser (localStorage w))
     (defaultPrevented w) (timers w)
     (trace w ++ [Call_setUser JNull; Call_removeItem viralAuditUser])).
Proof.
  unfold logout. run_handler. reflexivity.
Qed.

Lemma accepted_signed_in (entry : Call) (email : jsstring) (w : World) :
  signed_in email w (accepted entry email w).
Proof.
  unfold signed_in, accepted.
  cbn [auth user localStorage showAuthModal isLoading authView].
  rewrite lookup_insert_eq. cbn [mbind option_bind].
  rewrite JSON_parse_stringify_one. repeat split.
Qed.

Lemma refused_sign_in_refused (entry : Call) (email : jsstring) (w : World) :
  sign_in_refused email w (refused entry email w).
Proof. unfold sign_in_refused, refused. repeat split. Qed.

(** C2 (amended): for every email and every state, [login] and [signup]
    set the session to [{ email }] with no [name].  When the store accepts
    the record they end normally, with its serialization stored under the
    fixed key and the dialog closed.  When the store refuses it, [setItem]
    throws QuotaExceededError out of the operation after the session is
    set: nothing is stored and the dialog is left as it was. *)
Theorem login_signup_sign_in (email : jsstring) (w : World) :
  let signs_in (op : M unit) :=
    user (auth (world_after op w)) = JObj [(email_key, JStr email)] /\
    obj_get name_key [(email_key, JStr email)] = None /\
    if record_fits email w then
      outcome op w = Normal tt /\ signed_in email w (world_after op w)
    else
      outcome op w = Throw QuotaExceededError /\
      sign_in_refused email w (world_after op w) in
  signs_in (login email) /\ signs_in (signup email).
Proof.
  cbv zeta. unfold outcome, world_after. rewrite login_world, signup_world.
  destruct (record_fits email w); cbn [fst snd];
    repeat split;
    try apply accepted_signed_in; try apply refused_sign_in_refused.
Qed.

Lemma primitive_calls_app (t u : list Call) :
  primitive_calls (t ++ u) = primitive_calls t ++ primitive_calls u.
Proof.
  induction t as [|c t IH]; [reflexivity|].
  simpl. destruct (is_marker c); simpl; rewrite IH; reflexivity.
Qed.

(** C4: from every state and for every email, [login] and [signup]
    complete alike and leave the same container state, the same store, and
    the rest of the page as it was; they make the same primitive calls. *)
Theorem login_signup_equivalent (email : jsstring) (w : World) :
  outcome (login email) w = outcome (signup email) w /\
  auth (world_after (login email) w) = auth (world_after (signup email) w) /\
  localStorage (world_after (login email) w) =
    localStorage (world_after (signup email) w) /\
  form (world_after (login email) w) = form (world_after (signup email) w) /\
  timers (world_after (login email) w) = timers (world_after (signup email) w) /\
  primitive_calls (trace (world_after (login email) w)) =
    primitive_calls (trace (world_after (signup email) w)).
Proof.
  unfold outcome, world_after. rewrite login_world, signup_world.
  destruct (record_fits email w);
    cbn [fst snd auth localStorage form timers trace accepted refused];
    rewrite !primitive_calls_app; repeat split.
Qed.

(** C5: from every state, [logout] ends normally with the session absent
    and no record under the fixed key; the other keys of the store and the
    flags are as before. *)
Theorem logout_clears_session (w : World) :
  let w' := world_after logout w in
  outcome logout w = Normal tt /\
  user (auth w') = JNull /\
  localStorage w' !! viralAuditUser = None /\
  localStorage w' = delete viralAuditUser (localStorage w) /\
  isLoading (auth w') = isLoading (auth w) /\
  showAuthModal (auth w') = showAuthModal (auth w) /\
  authView (auth w') = authView (auth w).
Proof.
  cbv zeta. unfold outcome, world_after. rewrite logout_world.
  cbn [fst snd auth localStorage user isLoading showAuthModal authView].
  rewrite lookup_delete_eq. repeat split.
Qed.

(** C6: a second [logout] right after the first changes neither the
    container state nor the store (nor the form). *)
Theorem logout_idempotent (w : World) :
  let once := world_after logout w in
  let twice := world_after (logout ;; logout) w in
  outcome (logout ;; logout) w = outcome logout w /\
  auth twice = auth once /\
  localStorage twice = localStorage once /\
  form twice = form once.
Proof.
  cbv zeta. unfold outcome, world_after, bind.
  rewrite logout_world, logout_world.
  cbn [fst snd auth localStorage form user isLoading showAuthModal authView].
  rewrite delete_delete_eq. repeat split.
Qed.

(** ** Persisting and rehydrating *)

Lemma rehydrates_signed_in (address : jsstring)
  (store : gmap jsstring jsstring) :
  rehydrates_to (<[viralAuditUser := JSON_stringify [(email_key, address)]]> store)
    (JObj [(email_key, JStr address)]).
Proof.
  unfold rehydrates_to, outcome, world_after.
  rewrite initialize_unfold, lookup_insert_eq. cbv zeta.
  unfold JSON_stringify at 1 3. cbv iota beta.
  change (LBRACE :: serialize_properties [(email_key, address)] ++ [RBRACE])
    with (JSON_stringify [(email_key, address)]).
  rewrite JSON_parse_stringify_one. split; reflexivity.
Qed.

(** ** The install and checkout links *)

Lemma Navbar_install_click_world (w : World) :
  click_anchor hash_href None Navbar.handleInstallClick w =
  (Normal tt,
   if ToBoolean (user (auth w)) then
     mkWorld (auth w) (form w) (localStorage w) true (timers w)
       (trace w ++ [Call_preventDefault; Call_window_open install_url _blank])
   else intercepted w).
Proof.
  unfold click_anchor, Navbar.handleInstallClick, intercepted. run_handler.
  destruct (ToBoolean (user (auth w))); run_handler; reflexivity.
Qed.

Lemma Hero_install_click_world (w : World) :
  click_anchor hash_href None Hero.handleInstallClick w =
  click_anchor hash_href None Navbar.handleInstallClick w.
Proof. reflexivity. Qed.

Lemma PricingCard_click_world (checkoutUrl : jsstring) (w : World) :
  PricingCard.click checkoutUrl w =
  (Normal tt,
   if ToBoolean (user (auth w)) then
     mkWorld (auth w) (form w) (localStorage w) false (timers w)
       (trace w ++ [Follow_link checkoutUrl (Some _blank)])
   else intercepted w).
Proof.
  unfold PricingCard.click, click_anchor, PricingCard.handleCheckout,
    intercepted.
  run_handler.
  destruct (ToBoolean (user (auth w))); run_handler; reflexivity.
Qed.

Lemma ToBoolean_Session_present (w : World) :
  User_or_null (user (auth w)) ->
  ToBoolean (user (auth w)) = Session_present w.
Proof.
  unfold Session_present. intros [->|Hu]; [reflexivity|].
  destruct (user (auth w)); try discriminate Hu. reflexivity.
Qed.

Lemma links_gated_ToBoolean (checkoutUrl : jsstring) (w : World) :
  links_gated (ToBoolean (user (auth w))) checkoutUrl w.
Proof.
  unfold links_gated, gated, new_calls, outcome, world_after.
  change Hero.handleInstallClick with Navbar.handleInstallClick.
  rewrite Navbar_install_click_world, PricingCard_click_world.
  cbn [fst snd].
  destruct (ToBoolean (user (auth w))); unfold intercepted;
    cbn [trace auth authView showAuthModal user];
    rewrite !drop_app_length; repeat split.
Qed.

(** C7: in every state, a click on an install link ([Navbar], [Hero]) or
    on a checkout link navigates to the link's fixed URL when the
    components' test [if (user)] finds a session, and leaves the container
    alone; when it finds none the click navigates nowhere, and sets
    [authView] to signup and [showAuthModal] to true.  In a state whose
    [user] is of its declared type that test is [user !== null]. *)
Theorem links_gated_by_session (checkoutUrl : jsstring) (w : World) :
  links_gated (ToBoolean (user (auth w))) checkoutUrl w /\
  (User_or_null (user (auth w)) ->
   links_gated (Session_present w) checkoutUrl w).
Proof.
  split; [apply links_gated_ToBoolean|].
  intros Htyped. rewrite <- (ToBoolean_Session_present w Htyped).
  apply links_gated_ToBoolean.
Qed.

(** ** The flags and the store *)

Lemma initialize_unfold_any (w : World) :
  initialize w =
  let w0 := record_call (Call_getItem viralAuditUser) w in
  match localStorage w !! viralAuditUser with
  | Some ((_ :: _) as text) =>
      match JSON_parse text with
      | Some v => (setUser v ;; setIsLoading false) w0
      | None => (Throw SyntaxError, w0)
      end
  | Some [] | None => setIsLoading false w0
  end.
Proof.
  unfold initialize, bind, localStorage_getItem.
  destruct (localStorage w !! viralAuditUser) as [[|c text]|]; try reflexivity.
  unfold JSON_parse_call. destruct (JSON_parse (c :: text)); reflexivity.
Qed.

Lemma initialize_localStorage (w : World) :
  localStorage (world_after initialize w) = localStorage w /\
  store_writes (new_calls initialize w) = [].
Proof.
  unfold world_after, new_calls, world_after. rewrite initialize_unfold_any.
  cbv zeta.
  destruct (localStorage w !! viralAuditUser) as [[|c text]|];
    [| destruct (JSON_parse (c :: text)) |];
    run_handler; rewrite ?drop_app_length; split; reflexivity.
Qed.

Lemma run_operation_localStorage (op : Operation) (w : World) :
  localStorage (world_after (run_operation op) w) =
  match op with
  | Op_login email | Op_signup email =>
      if record_fits email w then
        <[viralAuditUser := JSON_stringify [(email_key, email)]]>
          (localStorage w)
      else localStorage w
  | Op_logout => delete viralAuditUser (localStorage w)
  | Op_initialize | Op_setShowAuthModal _ | Op_setAuthView _ => localStorage w
  end.
Proof.
  destruct op; cbn [run_operation].
  - apply initialize_localStorage.
  - unfold world_after. rewrite login_world.
    destruct (record_fits _ w); reflexivity.
  - unfold world_after. rewrite signup_world.
    destruct (record_fits _ w); reflexivity.
  - unfold world_after. rewrite logout_world. reflexivity.
  - reflexivity.
  - reflexivity.
Qed.

Lemma run_operation_store_writes (op : Operation) (w : World) :
  store_writes (new_calls (run_operation op) w) =
  match op with
  | Op_login email | Op_signup email =>
      [(viralAuditUser, JSON_stringify [(email_key, email)])]
  | _ => []
  end.
Proof.
  destruct op; cbn [run_operation].
  - apply initialize_localStorage.
  - unfold new_calls, world_after. rewrite login_world.
    destruct (record_fits _ w); cbn [snd trace accepted refused];
      rewrite drop_app_length; reflexivity.
  - unfold new_calls, world_after. rewrite signup_world.
    destruct (record_fits _ w); cbn [snd trace accepted refused];
      rewrite drop_app_length; reflexivity.
  - unfold new_calls, world_after. rewrite logout_world. cbn [snd trace].
    rewrite drop_app_length. reflexivity.
  - unfold new_calls, world_after. run_handler.
    rewrite drop_app_length. reflexivity.
  - unfold new_calls, world_after. run_handler.
    rewrite drop_app_length. reflexivity.
Qed.

(** C9: whatever the three flags hold, an operation leaves the same
    store and writes the same values to it, and what [login] and [signup]
    write is the serialized [{ email }] alone; [setShowAuthModal] and
    [setAuthView] change their own flag and nothing else of the page. *)
Theorem flags_never_persisted (w : World) :
  (forall op l s v,
      localStorage (world_after (run_operation op) (with_flags l s v w)) =
        localStorage (world_after (run_operation op) w) /\
      store_writes (new_calls (run_operation op) (with_flags l s v w)) =
        store_writes (new_calls (run_operation op) w) /\
      store_writes (new_calls (run_operation op) w) =
        match op with
        | Op_login email | Op_signup email =>
            [(viralAuditUser, JSON_stringify [(email_key, email)])]
        | _ => []
        end) /\
  (forall show,
      setShowAuthModal show w =
      (Normal tt,
       mkWorld
         (mkAuthState (user (auth w)) (isLoading (auth w)) show
            (authView (auth w)))
         (form w) (localStorage w) (defaultPrevented w) (timers w)
         (trace w ++ [Call_setShowAuthModal show]))) /\
  (forall view,
      setAuthView view w =
      (Normal tt,
       mkWorld
         (mkAuthState (user (auth w)) (isLoading (auth w))
            (showAuthModal (auth w)) view)
         (form w) (localStorage w) (defaultPrevented w) (timers w)
         (trace w ++ [Call_setAuthView view]))).
Proof.
  repeat split.
  - rewrite !run_operation_localStorage. destruct op; reflexivity.
  - rewrite !run_operation_store_writes. reflexivity.
  - apply run_operation_store_writes.
Qed.

(** ** Submitting the form *)

Lemma submit_world (view : AuthView) (address : jsstring) (w : World) :
  submit_form (AuthModal.handleSubmit view address) w =
  (Normal tt,
   mkWorld (auth w)
     (mkFormState (email (form w)) (password (form w)) true)
     (localStorage w) true
     (timers w ++ [mkTimer 1000 view address])
     (trace w ++
      [Call_preventDefault; Call_setLoading true; Call_setTimeout 1000])).
Proof.
  unfold submit_form, AuthModal.handleSubmit. run_handler. reflexivity.
Qed.

Lemma resumed_world (view : AuthView) (address : jsstring) (w : World) :
  AuthModal.handleSubmit_resumed login signup view address w =
  if record_fits address w then
    (Normal tt,
     mkWorld
       (mkAuthState (JObj [(email_key, JStr address)]) (isLoading (auth w))
          false (authView (auth w)))
       (mkFormState [] [] false)
       (<[viralAuditUser := JSON_stringify [(email_key, address)]]>
          (localStorage w))
       (defaultPrevented w) (timers w)
       (trace w ++
        [Enter view address;
         Call_setUser (JObj [(email_key, JStr address)]);
         Call_setItem viralAuditUser (JSON_stringify [(email_key, address)]);
         Call_setShowAuthModal false;
         Call_setLoading false; Call_setEmail []; Call_setPassword []]))
  else (Throw QuotaExceededError, refused (Enter view address) address w).
Proof.
  unfold AuthModal.handleSubmit_resumed, bind.
  destruct view; [rewrite login_world | rewrite signup_world];
    destruct (record_fits address w); unfold accepted, refused;
    run_handler; reflexivity.
Qed.

(** Replaces, for each kind of event, the handler run on [w] by the world
    it produces. *)
Ltac dispatch_cases e w :=
  destruct e; cbn [dispatch];
  [ rewrite ?logout_world
  | unfold Navbar.onLoginClick; run_handler
  | rewrite ?Navbar_install_click_world
  | change Hero.handleInstallClick with Navbar.handleInstallClick;
    rewrite ?Navbar_install_click_world
  | rewrite ?PricingCard_click_world
  | run_handler
  | run_handler
  | unfold AuthModal.onSwitchClick; run_handler;
    destruct (authView (auth w)); run_handler
  | run_handler
  | run_handler
  | unfold bind, read; rewrite ?submit_world
  | destruct (timers w) as [|? ?] eqn:?; rewrite ?resumed_world ].

(** Cases on the test [if (user)] and on the store's answer where the goal
    still has them. *)
Ltac split_session w :=
  match goal with
  | |- context [ToBoolean (user (auth w))] =>
      destruct (ToBoolean (user (auth w))) eqn:?
  end.

Ltac split_fits :=
  match goal with
  | |- context [record_fits ?a ?w] => destruct (record_fits a w) eqn:?
  end.

(** ** Invariants of the page *)

Lemma initialize_frame (w : World) :
  showAuthModal (auth (world_after initialize w)) = showAuthModal (auth w) /\
  authView (auth (world_after initialize w)) = authView (auth w) /\
  form (world_after initialize w) = form w /\
  timers (world_after initialize w) = timers w.
Proof.
  unfold world_after. rewrite initialize_unfold_any. cbv zeta.
  destruct (localStorage w !! viralAuditUser) as [[|c text]|];
    [| destruct (JSON_parse (c :: text)) |]; repeat split.
Qed.

Lemma page_loading_while_waiting (checked : bool) (w : World) :
  page checked w -> loading_while_waiting w.
Proof.
  unfold loading_while_waiting.
  induction 1 as [store | w w' Hpage IH Hcheck
                 | checked w e c w' Hpage IH Hrendered Hstep
                 | checked w store Hpage IH].
  - exact I.
  - pose proof (initialize_frame w) as (_ & _ & Hf & Ht).
    unfold world_after in Hf, Ht. rewrite Hcheck in Hf, Ht.
    cbn [snd] in Hf, Ht. rewrite Hf, Ht. exact IH.
  - revert Hstep.
    dispatch_cases e w; try split_session w; try split_fits;
      intros Hstep; injection Hstep as _ <-;
      cbn [timers form loading intercepted refused with_timers];
      try exact IH.
    + cbn [rendered] in Hrendered. unfold AuthModal.submit_disabled in Hrendered.
      destruct (loading (form w)) eqn:Hl.
      { rewrite andb_false_r in Hrendered. discriminate Hrendered. }
      destruct (timers w) as [|t [|t' ts]];
        [reflexivity | discriminate IH | contradiction].
    + match goal with H : timers w = [] |- _ => rewrite H end. exact I.
    + match goal with
      | H : timers w = _ :: ?ts |- _ => destruct ts; [exact I | contradiction]
      end.
    + match goal with
      | H : timers w = _ :: ?ts |- _ => destruct ts; [exact I | contradiction]
      end.
  - exact IH.
Qed.



(** C8 (amended): a submission of the form, with the [authView] and
    [email] of the render it happens in, first prevents the default action,
    sets [loading] (which disables the submit button) and asks for a timer
    of 1000 ms; when the timer elapses, in whatever state the page then is,
    it enters [login] if [authView] was login and [signup] otherwise.  If
    the store accepts the record, it then, and only after the session is
    set and stored, clears [loading] and empties the two fields.  If the
    store refuses it, the handler ends there with QuotaExceededError: the
    session is set, [loading] is not cleared, the fields and the dialog are
    as they were.  While the page runs the button is disabled as long as
    the timer is pending.  The form's submit event runs the first part with
    the current [authView] and [email]; the timer runs the second with the
    values the first part closed over. *)
Theorem submission_flow (view : AuthView) (address : jsstring) (w w1 : World) :
  let submit := submit_form (AuthModal.handleSubmit view address) in
  let resume := AuthModal.handleSubmit_resumed login signup view address in
  (outcome submit w = Normal tt /\
   new_calls submit w =
     [Call_preventDefault; Call_setLoading true; Call_setTimeout 1000] /\
   AuthModal.submit_disabled (world_after submit w) = true /\
   timers (world_after submit w) = timers w ++ [mkTimer 1000 view address] /\
   auth (world_after submit w) = auth w) /\
  (if record_fits address w1 then
     outcome resume w1 = Normal tt /\
     new_calls resume w1 =
       [match view with
        | view_login => Enter_login address
        | view_signup => Enter_signup address
        end;
        Call_setUser (JObj [(email_key, JStr address)]);
        Call_setItem viralAuditUser (JSON_stringify [(email_key, address)]);
        Call_setShowAuthModal false;
        Call_setLoading false; Call_setEmail []; Call_setPassword []] /\
     new_calls resume w1 =
       match view with
       | view_login => new_calls (login address) w1
       | view_signup => new_calls (signup address) w1
       end ++ [Call_setLoading false; Call_setEmail []; Call_setPassword []] /\
     form (world_after resume w1) = mkFormState [] [] false /\
     AuthModal.submit_disabled (world_after resume w1) = false
   else
     outcome resume w1 = Throw QuotaExceededError /\
     new_calls resume w1 =
       [match view with
        | view_login => Enter_login address
        | view_signup => Enter_signup address
        end;
        Call_setUser (JObj [(email_key, JStr address)]);
        Call_setItem viralAuditUser (JSON_stringify [(email_key, address)])] /\
     user (auth (world_after resume w1)) = JObj [(email_key, JStr address)] /\
     showAuthModal (auth (world_after resume w1)) = showAuthModal (auth w1) /\
     form (world_after resume w1) = form w1 /\
     localStorage (world_after resume w1) = localStorage w1) /\
  (forall w2,
      running w2 -> nonempty (timers w2) = true ->
      AuthModal.submit_disabled w2 = true) /\
  (forall w2,
      dispatch Submit_AuthModal w2 =
      submit_form
        (AuthModal.handleSubmit (authView (auth w2)) (email (form w2))) w2) /\
  (forall w2 t ts,
      dispatch Timer_elapsed (with_timers (fun _ => t :: ts) w2) =
      AuthModal.handleSubmit_resumed login signup
        (closed_authView t) (closed_email t)
        (with_timers (fun _ => ts) w2)).
Proof.
  cbv zeta. unfold new_calls, outcome, world_after.
  rewrite submit_world, resumed_world, login_world, signup_world.
  cbn [fst snd trace timers auth form AuthModal.submit_disabled loading].
  rewrite !drop_app_length.
  split; [repeat split|]. split; [|split].
  - destruct (record_fits address w1);
      cbn [fst snd trace auth form user showAuthModal localStorage loading
           accepted refused Enter];
      rewrite !drop_app_length; destruct view; repeat split.
  - intros w2 [checked Hpage] Hwaiting.
    apply page_loading_while_waiting in Hpage.
    unfold loading_while_waiting in Hpage.
    destruct (timers w2) as [|t [|t' ts]];
      [discriminate Hwaiting | exact Hpage | contradiction].
  - split; reflexivity.
Qed.

(** * Further properties of the page *)


Lemma navigations_app (t u : list Call) :
  navigations (t ++ u) = navigations t ++ navigations u.
Proof. apply omap_app. Qed.

Lemma dispatch_surjective (e : UIEvent) (w : World) :
  dispatch e w = (outcome (dispatch e) w, world_after (dispatch e) w).
Proof. unfold outcome, world_after. destruct (dispatch e w). reflexivity. Qed.

Lemma dispatch_session_step (e : UIEvent) (w : World) :
  outcome (dispatch e) w = Normal tt ->
  session_step w (world_after (dispatch e) w).
Proof.
  unfold session_step, outcome, world_after.
  dispatch_cases e w; try split_session w; try split_fits; cbn [fst snd];
    intros Hout; try discriminate Hout;
    try (left; split; reflexivity).
  - right. left. split; reflexivity.
  - right. right. eexists. split; reflexivity.
Qed.

Lemma dispatch_session_step_any (e : UIEvent) (w : World) :
  session_step w (world_after (dispatch e) w) \/
  session_step_refused w (world_after (dispatch e) w).
Proof.
  destruct (outcome (dispatch e) w) as [[]|x] eqn:Hout.
  { left. apply dispatch_session_step, Hout. }
  right. revert Hout. unfold session_step_refused, outcome, world_after.
  dispatch_cases e w; try split_session w; try split_fits; cbn [fst snd];
    intros Hout; try discriminate Hout.
  eexists. split; reflexivity.
Qed.

(** ** Runs *)

Lemma run_events_cons (e : UIEvent) (es : list UIEvent) (w w' : World) :
  run_events (e :: es) w = Some w' ->
  rendered w e = true /\
  outcome (dispatch e) w = Normal tt /\
  run_events es (world_after (dispatch e) w) = Some w'.
Proof.
  cbn [run_events]. destruct (rendered w e); [|discriminate].
  rewrite dispatch_surjective.
  destruct (outcome (dispatch e) w) as [[]|x]; [|discriminate]. auto.
Qed.

Lemma run_events_page (checked : bool) (es : list UIEvent) (w w' : World) :
  page checked w -> run_events es w = Some w' -> page checked w'.
Proof.
  revert w. induction es as [|e es IH]; intros w Hpage H.
  - injection H as <-. exact Hpage.
  - apply run_events_cons in H as (Hr & _ & H).
    exact (IH _ (page_event checked w e _ _ Hpage Hr
                   (dispatch_surjective e w)) H).
Qed.

Lemma visit_mount (store : gmap jsstring jsstring) (es : list UIEvent)
  (w : World) :
  visit store es = Some w ->
  exists w0,
    initialize (initial store) = (Normal tt, w0) /\ run_events es w0 = Some w.
Proof.
  unfold visit. destruct (initialize (initial store)) as [[[]|x] w0];
    [|discriminate].
  intros H. exists w0. auto.
Qed.

Lemma visit_page (store : gmap jsstring jsstring) (es : list UIEvent)
  (w : World) :
  visit store es = Some w -> page true w.
Proof.
  intros (w0 & Hmount & Hrun)%visit_mount.
  apply (run_events_page true es w0 w); [|exact Hrun].
  exact (page_session_check _ _ (page_first_render store) Hmount).
Qed.




(** An induction principle for visits: a property of the mounted world
    that every rendered event whose handler ends normally preserves holds
    at the end. *)
Lemma visit_ind (P : World -> Prop) (store : gmap jsstring jsstring) :
  (forall w0, initialize (initial store) = (Normal tt, w0) -> P w0) ->
  (forall e w,
      P w -> rendered w e = true -> outcome (dispatch e) w = Normal tt ->
      P (world_after (dispatch e) w)) ->
  forall es w, visit store es = Some w -> P w.
Proof.
  intros Hmount Hstep es w (w0 & Hinit & Hrun)%visit_mount.
  specialize (Hmount w0 Hinit). clear Hinit.
  revert w0 Hmount Hrun. induction es as [|e es IH]; intros w0 HP Hrun.
  - injection Hrun as <-. exact HP.
  - apply run_events_cons in Hrun as (Hr & Hout & Hrun).
    exact (IH _ (Hstep e w0 HP Hr Hout) Hrun).
Qed.

(** ** The store keeps up with the session *)

Lemma rehydrates_signed_out (store : gmap jsstring jsstring) :
  rehydrates_to (delete viralAuditUser store) JNull.
Proof.
  unfold rehydrates_to, outcome, world_after.
  rewrite initialize_unfold, lookup_delete_eq. split; reflexivity.
Qed.

Lemma mounted_rehydrates (store : gmap jsstring jsstring) (w : World) :
  initialize (initial store) = (Normal tt, w) ->
  rehydrates_to (localStorage w) (user (auth w)).
Proof.
  intros H. assert (localStorage w = store) as ->.
  { pose proof (proj1 (initialize_localStorage (initial store))) as Hs.
    unfold world_after in Hs. rewrite H in Hs. exact Hs. }
  unfold rehydrates_to, outcome, world_after. rewrite H. split; reflexivity.
Qed.

Lemma session_step_rehydrates (w w' : World) :
  session_step w w' ->
  rehydrates_to (localStorage w) (user (auth w)) ->
  rehydrates_to (localStorage w') (user (auth w')).
Proof.
  intros [[-> ->] | [[-> ->] | (address & -> & ->)]] H.
  - exact H.
  - apply rehydrates_signed_out.
  - apply rehydrates_signed_in.
Qed.

(** X1: at any moment of a visit that begins with the session check, that
    no other page disturbs and in which every handler has ended normally
    (no write to the store was refused), a reload over the store as it then
    is ends its session check normally and finds the session the page then
    has. *)
Theorem visit_reload_restores_session
  (store : gmap jsstring jsstring) (es : list UIEvent) (w : World) :
  visit store es = Some w ->
  rehydrates_to (localStorage w) (user (auth w)).
Proof.
  apply (visit_ind (fun w => rehydrates_to (localStorage w) (user (auth w)))).
  - apply mounted_rehydrates.
  - intros e w' H _ Hout.
    exact (session_step_rehydrates _ _ (dispatch_session_step e w' Hout) H).
Qed.

(** ** A pending submission *)

Lemma dispatch_keeps_waiting (e : UIEvent) (w : World) :
  is_timer e = false -> rendered w e = true -> loading (form w) = true ->
  timers (world_after (dispatch e) w) = timers w /\
  loading (form (world_after (dispatch e) w)) = true.
Proof.
  intros Ht Hr Hl. unfold world_after.
  dispatch_cases e w; cbn [snd]; try split_session w;
    try discriminate Ht; try (split; [reflexivity | exact Hl]).
  cbn [rendered] in Hr. unfold AuthModal.submit_disabled in Hr.
  rewrite Hl in Hr. cbn [negb] in Hr.
  rewrite andb_false_r in Hr. discriminate Hr.
Qed.

Lemma run_events_keeps_waiting (es : list UIEvent) (w w' : World) :
  no_timer es = true -> run_events es w = Some w' ->
  loading (form w) = true ->
  timers w' = timers w /\ loading (form w') = true.
Proof.
  revert w. induction es as [|e es IH]; intros w Hnt Hrun Hl.
  - injection Hrun as <-. auto.
  - cbn [no_timer forallb] in Hnt. apply andb_true_iff in Hnt as [Ht Hnt].
    apply negb_true_iff in Ht.
    apply run_events_cons in Hrun as (Hr & _ & Hrun).
    destruct (dispatch_keeps_waiting e w Ht Hr Hl) as [Hts Hl'].
    destruct (IH _ Hnt Hrun Hl') as [Hts' Hl''].
    rewrite Hts', Hts. auto.
Qed.

(** X2: once the form is submitted, nothing the visitor does before the
    timer elapses (typing in the fields, switching the view, closing the
    dialog) cancels or alters the submission: the one pending timer still
    holds the view and the email of the moment of submission, the form
    cannot be submitted again, and when the timer elapses the session is
    that email's.  If the store accepts the record it is stored, the dialog
    is closed and both fields are emptied; if the store refuses it the
    handler throws with the store, the dialog and the form as they were. *)
Theorem submission_cannot_be_altered (es : list UIEvent) (w w1 : World) :
  timers w = [] ->
  no_timer es = true ->
  run_events es (world_after (dispatch Submit_AuthModal) w) = Some w1 ->
  let w2 := world_after (dispatch Timer_elapsed) w1 in
  timers w1 = [mkTimer 1000 (authView (auth w)) (email (form w))] /\
  rendered w1 Submit_AuthModal = false /\
  head (new_calls (dispatch Timer_elapsed) w1) =
    Some (Enter (authView (auth w)) (email (form w))) /\
  user (auth w2) = JObj [(email_key, JStr (email (form w)))] /\
  timers w2 = [] /\
  if record_fits (email (form w)) w1 then
    outcome (dispatch Timer_elapsed) w1 = Normal tt /\
    localStorage w2 =
      <[viralAuditUser := JSON_stringify [(email_key, email (form w))]]>
        (localStorage w1) /\
    showAuthModal (auth w2) = false /\
    form w2 = mkFormState [] [] false
  else
    outcome (dispatch Timer_elapsed) w1 = Throw QuotaExceededError /\
    localStorage w2 = localStorage w1 /\
    showAuthModal (auth w2) = showAuthModal (auth w1) /\
    form w2 = form w1.
Proof.
  intros Hts Hnt Hrun.
  assert (world_after (dispatch Submit_AuthModal) w =
          snd (submit_form
                 (AuthModal.handleSubmit (authView (auth w)) (email (form w))) w))
    as Hsub by reflexivity.
  rewrite submit_world in Hsub. cbn [snd] in Hsub.
  destruct (run_events_keeps_waiting es _ w1 Hnt Hrun) as [Ht1 Hl1].
  { rewrite Hsub. reflexivity. }
  rewrite Hsub in Ht1. cbn [timers] in Ht1. rewrite Hts in Ht1.
  cbn [app] in Ht1.
  cbv zeta. unfold new_calls, outcome, world_after. cbn [dispatch].
  rewrite Ht1. rewrite resumed_world.
  cbn [closed_authView closed_email].
  change (record_fits (email (form w)) (with_timers (fun _ => []) w1))
    with (record_fits (email (form w)) w1).
  split; [reflexivity|]. split.
  { cbn [rendered]. unfold AuthModal.submit_disabled. rewrite Hl1.
    cbn [negb]. rewrite andb_false_r. reflexivity. }
  destruct (record_fits (email (form w)) w1);
    cbn [fst snd trace auth form localStorage timers user showAuthModal
         with_timers refused];
    rewrite drop_app_length; repeat split.
Qed.

(** ** How the operations compose *)

Lemma sign_in_world (view : AuthView) (address : jsstring) (w : World) :
  sign_in view address w =
  if record_fits address w then
    (Normal tt, accepted (Enter view address) address w)
  else (Throw QuotaExceededError, refused (Enter view address) address w).
Proof.
  destruct view; [apply login_world | apply signup_world].
Qed.

(** X3: the last operation wins.  A sign-in (by [login] or [signup]) that
    the store accepts leaves the container state, the store and the form
    the same whether or not an earlier sign-in, accepted or refused, or a
    [logout] came before it: one stored record, that of the later email.  A
    [logout] after a sign-in, accepted or refused, leaves the session
    absent and the store as [logout] alone would. *)
Theorem last_operation_wins (view1 view2 : AuthView)
  (address1 address2 : jsstring) (w : World) :
  let earlier := world_after (sign_in view1 address1) w in
  (record_fits address2 w = true ->
   same_page (world_after (sign_in view2 address2) earlier)
             (world_after (sign_in view2 address2) w) /\
   same_page (world_after (sign_in view2 address2) (world_after logout w))
             (world_after (sign_in view2 address2) w)) /\
  user (auth (world_after logout earlier)) = JNull /\
  localStorage (world_after logout earlier) =
    localStorage (world_after logout w).
Proof.
  cbv zeta.
  assert (forall w', localStorage w' = localStorage w \/
                     localStorage w' =
                       <[viralAuditUser := JSON_stringify [(email_key, address1)]]>
                         (localStorage w) \/
                     localStorage w' = delete viralAuditUser (localStorage w) ->
                     record_fits address2 w' = record_fits address2 w) as Hfits.
  { intros w' H. unfold record_fits. destruct H as [-> | [-> | ->]];
      rewrite ?insert_insert_eq, ?insert_delete_eq; reflexivity. }
  split.
  - intros Hfit. unfold same_page, world_after.
    rewrite (sign_in_world view1), logout_world, !(sign_in_world view2).
    rewrite Hfit.
    destruct (record_fits address1 w); cbn [snd].
    + rewrite (Hfits (accepted _ _ _)) by (right; left; reflexivity).
      rewrite (Hfits (mkWorld _ _ _ _ _ _)) by (right; right; reflexivity).
      rewrite Hfit. cbn [snd accepted auth form localStorage isLoading authView].
      rewrite insert_insert_eq, insert_delete_eq. repeat split.
    + rewrite (Hfits (refused _ _ _)) by (left; reflexivity).
      rewrite (Hfits (mkWorld _ _ _ _ _ _)) by (right; right; reflexivity).
      rewrite Hfit.
      cbn [snd accepted refused auth form localStorage isLoading authView].
      rewrite insert_delete_eq. repeat split.
  - unfold world_after. rewrite (sign_in_world view1), !logout_world.
    destruct (record_fits address1 w);
      cbn [snd accepted refused auth user localStorage];
      rewrite ?delete_insert_eq; split; reflexivity.
Qed.

(** ** What a visit never does *)





Lemma dispatch_without_session (e : UIEvent) (w : World) :
  ToBoolean (user (auth w)) = false ->
  is_timer e = false -> rendered w e = true ->
  user (auth (world_after (dispatch e) w)) = user (auth w) /\
  navigations (trace (world_after (dispatch e) w)) = navigations (trace w).
Proof.
  intros Hu Ht Hr. unfold world_after.
  dispatch_cases e w; cbn [snd]; rewrite ?Hu;
    cbn [auth user trace intercepted]; rewrite ?navigations_app;
    cbn [navigations omap navigation list_omap]; rewrite ?app_nil_r;
    try discriminate Ht; try (split; reflexivity).
  cbn [rendered] in Hr. congruence.
Qed.

(** X6: a visit in which the session check finds no session and no
    submission completes never navigates away: no install or checkout URL
    is opened, whatever is clicked, and the session stays as the check left
    it. *)
Theorem no_navigation_without_session
  (store : gmap jsstring jsstring) (es : list UIEvent) (w : World) :
  visit store es = Some w ->
  ToBoolean (user (auth (world_after initialize (initial store)))) = false ->
  no_timer es = true ->
  navigations (trace w) = [] /\
  user (auth w) = user (auth (world_after initialize (initial store))).
Proof.
  intros (w0 & Hmount & Hrun)%visit_mount.
  unfold world_after. rewrite Hmount. cbn [snd]. intros Hu Hnt.
  assert (navigations (trace w0) = []) as Hnav.
  { revert Hmount. rewrite initialize_unfold. cbv zeta.
    destruct (store !! viralAuditUser) as [[|c text]|];
      [| destruct (JSON_parse (c :: text)) |];
      run_handler; intros H; inversion H; subst; reflexivity. }
  rewrite <- Hnav. clear Hmount.
  revert w0 Hrun Hu Hnav. induction es as [|e es IH]; intros w0 Hrun Hu Hnav.
  - injection Hrun as <-. auto.
  - cbn [no_timer forallb] in Hnt. apply andb_true_iff in Hnt as [Ht Hnt].
    apply negb_true_iff in Ht.
    apply run_events_cons in Hrun as (Hr & _ & Hrun).
    destruct (dispatch_without_session e w0 Hu Ht Hr) as [Hu' Hnav'].
    destruct (IH Hnt _ Hrun) as [H1 H2]; [congruence | congruence |].
    split; congruence.
Qed.

(** X8: in every state of the running page at most one submission is
    pending, and while one is the form cannot be submitted again. *)
Theorem one_submission_at_a_time (w : World) :
  running w ->
  (length (timers w) <= 1)%nat /\
  (nonempty (timers w) = true -> rendered w Submit_AuthModal = false).
Proof.
  intros [checked Hl%page_loading_while_waiting].
  unfold loading_while_waiting in Hl.
  destruct (timers w) as [|t [|t' ts]]; [| |contradiction].
  - split; [simpl; lia | discriminate].
  - split; [simpl; lia |]. intros _.
    cbn [rendered]. unfold AuthModal.submit_disabled. rewrite Hl.
    cbn [negb]. rewrite andb_false_r. reflexivity.
Qed.

(** ** The password *)

Lemma rendered_with_password (e : UIEvent) (w : World) (p : jsstring) :
  nonempty p = nonempty (password (form w)) ->
  rendered (with_password p w) e = rendered w e.
Proof.
  intros Hp. destruct e; try reflexivity.
  cbn [rendered with_password with_form auth form email password loading].
  unfold AuthModal.submit_disabled.
  cbn [form loading]. rewrite Hp. reflexivity.
Qed.

Lemma dispatch_with_password (e : UIEvent) (w : World) (p : jsstring) :
  nonempty p = nonempty (password (form w)) ->
  exists p',
    dispatch e (with_password p w) =
      (outcome (dispatch e) w, with_password p' (world_after (dispatch e) w)) /\
    nonempty p' = nonempty (password (form (world_after (dispatch e) w))).
Proof.
  intros Hp. unfold outcome, world_after, with_password, with_form.
  destruct e; cbn [dispatch].
  - rewrite !logout_world. exists p. split; [reflexivity | exact Hp].
  - unfold Navbar.onLoginClick. run_handler.
    exists p. split; [reflexivity | exact Hp].
  - rewrite !Navbar_install_click_world. cbn [fst snd auth].
    destruct (ToBoolean (user (auth w))); exists p;
      (split; [reflexivity | exact Hp]).
  - change Hero.handleInstallClick with Navbar.handleInstallClick.
    rewrite !Navbar_install_click_world. cbn [fst snd auth].
    destruct (ToBoolean (user (auth w))); exists p;
      (split; [reflexivity | exact Hp]).
  - rewrite !PricingCard_click_world. cbn [fst snd auth].
    destruct (ToBoolean (user (auth w))); exists p;
      (split; [reflexivity | exact Hp]).
  - run_handler. exists p. split; [reflexivity | exact Hp].
  - run_handler. exists p. split; [reflexivity | exact Hp].
  - unfold AuthModal.onSwitchClick. run_handler.
    destruct (authView (auth w)); run_handler; exists p;
      (split; [reflexivity | exact Hp]).
  - run_handler. exists p. split; [reflexivity | exact Hp].
  - run_handler. exists s. split; reflexivity.
  - unfold bind, read. rewrite !submit_world.
    exists p. split; [reflexivity | exact Hp].
  - cbn [timers]. destruct (timers w) as [|t ts] eqn:Ht.
    + cbn [fst snd]. rewrite Ht. exists p. split; [reflexivity | exact Hp].
    + rewrite !resumed_world. unfold record_fits.
      cbn [localStorage with_timers]. destruct (fits _).
      * exists []. split; reflexivity.
      * exists p. split; [reflexivity | exact Hp].
Qed.

(** X10: which password is typed never matters, only whether one is (the
    field is [required]).  Two pages that differ only in the text of the
    password field, empty in both or in neither, go through any sequence of
    events alike: the same events are deliverable, the same handlers throw,
    and the pages they end in differ at most in that text, so the session,
    the store, the flags, the timers and the calls made are the same. *)
Theorem password_matters_only_if_empty (es : list UIEvent) (w : World)
  (p : jsstring) :
  nonempty p = nonempty (password (form w)) ->
  agree_up_to_password (run_events es w) (run_events es (with_password p w)).
Proof.
  revert w p. induction es as [|e es IH]; intros w p Hp.
  - cbn. exists p. reflexivity.
  - cbn [run_events]. rewrite (rendered_with_password e w p Hp).
    destruct (rendered w e); [|exact I].
    destruct (dispatch_with_password e w p Hp) as (p' & -> & Hp').
    rewrite dispatch_surjective.
    destruct (outcome (dispatch e) w) as [[]|x]; [|exact I].
    apply IH, Hp'.
Qed.

(** ** The funnel *)

Lemma run_events_step (e : UIEvent) (es : list UIEvent) (w : World) :
  rendered w e = true -> outcome (dispatch e) w = Normal tt ->
  run_events (e :: es) w = run_events es (world_after (dispatch e) w).
Proof.
  intros Hr Hout. cbn [run_events].
  rewrite Hr, dispatch_surjective, Hout. reflexivity.
Qed.

Lemma setEmail_world (s : jsstring) (w : World) :
  setEmail s w =
  (Normal tt,
   mkWorld (auth w) (mkFormState s (password (form w)) (loading (form w)))
     (localStorage w) (defaultPrevented w) (timers w)
     (trace w ++ [Call_setEmail s])).
Proof. reflexivity. Qed.

Lemma setPassword_world (s : jsstring) (w : World) :
  setPassword s w =
  (Normal tt,
   mkWorld (auth w) (mkFormState (email (form w)) s (loading (form w)))
     (localStorage w) (defaultPrevented w) (timers w)
     (trace w ++ [Call_setPassword s])).
Proof. reflexivity. Qed.

Lemma mounted_without_record (store : gmap jsstring jsstring) :
  store !! viralAuditUser = None ->
  initialize (initial store) =
  (Normal tt,
   mkWorld (mkAuthState JNull false false view_signup)
     (mkFormState [] [] false) store false []
     [Call_getItem viralAuditUser; Call_setIsLoading false]).
Proof.
  intros H. rewrite initialize_unfold, H. reflexivity.
Qed.

(** Reads the fields of the explicit worlds in the goal. *)
Ltac project_world :=
  cbn [fst snd auth form localStorage defaultPrevented timers trace
       user isLoading showAuthModal authView email password loading
       with_timers closed_authView closed_email delay ToBoolean app
       navigations omap list_omap navigation];
  rewrite <- ?app_assoc;
  cbn [app navigations omap list_omap navigation].

(** X9: for every email the browser's validation lets through and every
    password, neither empty, over every store with no record that accepts
    the email's record: a new visitor who clicks Install is kept on the
    page, and after filling in and submitting the form and the wait has the
    session of that email, stored under the fixed key, with the dialog
    closed and the form emptied; the next click on Install opens the
    install URL.  That is the only navigation of the visit. *)
Theorem funnel_signs_in_then_installs
  (store : gmap jsstring jsstring) (address pw : jsstring) :
  store !! viralAuditUser = None ->
  address <> [] -> pw <> [] ->
  valid_email address = true ->
  fits (<[viralAuditUser := JSON_stringify [(email_key, address)]]> store)
    = true ->
  exists w,
    visit store (funnel address pw) = Some w /\
    user (auth w) = JObj [(email_key, JStr address)] /\
    localStorage w =
      <[viralAuditUser := JSON_stringify [(email_key, address)]]> store /\
    showAuthModal (auth w) = false /\
    form w = mkFormState [] [] false /\
    navigations (trace w) = [(install_url, Some _blank)].
Proof.
  intros Hstore Ha Hp Hvalid Hfits.
  destruct address as [|a address]; [contradiction|].
  destruct pw as [|q pw]; [contradiction|].
  unfold visit, funnel.
  rewrite (mounted_without_record store Hstore).
  rewrite run_events_step by reflexivity.
  unfold world_after at 1. cbn [dispatch].
  change Hero.handleInstallClick with Navbar.handleInstallClick.
  rewrite Navbar_install_click_world. unfold intercepted. project_world.
  rewrite run_events_step by reflexivity.
  unfold world_after at 1. cbn [dispatch]. rewrite setEmail_world.
  project_world.
  rewrite run_events_step by reflexivity.
  unfold world_after at 1. cbn [dispatch]. rewrite setPassword_world.
  project_world.
  rewrite run_events_step;
    [| cbn [rendered]; unfold AuthModal.submit_disabled; project_world;
       rewrite Hvalid; reflexivity
     | reflexivity].
  unfold world_after at 1. cbn [dispatch]. unfold bind at 1 2, read.
  rewrite submit_world. project_world.
  rewrite run_events_step;
    [| reflexivity
     | unfold outcome; cbn [dispatch timers]; rewrite resumed_world;
       unfold record_fits; project_world; rewrite Hfits; reflexivity].
  unfold world_after at 1. cbn [dispatch timers]. rewrite resumed_world.
  unfold record_fits. project_world. rewrite Hfits. project_world.
  rewrite run_events_step by reflexivity.
  unfold world_after at 1. cbn [dispatch].
  change Hero.handleInstallClick with Navbar.handleInstallClick.
  rewrite Navbar_install_click_world. project_world.
  eexists. split; [reflexivity|].
  project_world. repeat split.
Qed.

(** ** The gate and the last operation *)


(** ** The store after the session check *)

(** X11: after the session check the page never reads the store; what the
    store holds reaches the page only through a write it refuses.
    Delivering an event to two pages that differ only in what the store
    holds, with the handler completing alike on both (both normally, or
    both thrown out of by [setItem]), leaves two pages that differ only in
    what the store holds: the session, the flags, the form, the timers and
    the calls made are the same, so a sign-out or sign-in made by another
    page goes unnoticed. *)
Theorem store_reaches_page_only_by_refusal (e : UIEvent) (w : World)
  (store : gmap jsstring jsstring) :
  outcome (dispatch e) (with_localStorage (fun _ => store) w) =
    outcome (dispatch e) w ->
  exists store',
    world_after (dispatch e) (with_localStorage (fun _ => store) w) =
    with_localStorage (fun _ => store') (world_after (dispatch e) w).
Proof.
  unfold outcome, world_after, with_localStorage.
  destruct e; cbn [dispatch]; intros Hout.
  - rewrite !logout_world. eexists. reflexivity.
  - unfold Navbar.onLoginClick. run_handler. eexists. reflexivity.
  - rewrite !Navbar_install_click_world. cbn [snd auth].
    destruct (ToBoolean (user (auth w))); eexists; reflexivity.
  - change Hero.handleInstallClick with Navbar.handleInstallClick.
    rewrite !Navbar_install_click_world. cbn [snd auth].
    destruct (ToBoolean (user (auth w))); eexists; reflexivity.
  - rewrite !PricingCard_click_world. cbn [snd auth].
    destruct (ToBoolean (user (auth w))); eexists; reflexivity.
  - run_handler. eexists. reflexivity.
  - run_handler. eexists. reflexivity.
  - unfold AuthModal.onSwitchClick. run_handler.
    destruct (authView (auth w)); run_handler; eexists; reflexivity.
  - run_handler. eexists. reflexivity.
  - run_handler. eexists. reflexivity.
  - unfold bind, read. rewrite !submit_world. eexists. reflexivity.
  - revert Hout. cbn [timers]. destruct (timers w) as [|t ts] eqn:Ht.
    + intros _. cbn [snd]. rewrite Ht. eexists. reflexivity.
    + rewrite !resumed_world. unfold record_fits.
      cbn [localStorage with_timers].
      destruct (fits (<[viralAuditUser := _]> store));
        destruct (fits (<[viralAuditUser := _]> (localStorage w)));
        cbn [fst snd]; intros Hout; try discriminate Hout;
        eexists; reflexivity.
Qed.

(** ** The type of the session *)



End Page.

(** * The properties in two browsers *)

(** ** A store with room *)

Lemma visit_signed_in_visit :
  visit unlimited contains_at ∅
    [Click_Navbar_Install; Input_email alice;
     Input_password (js "secret"); Submit_AuthModal; Timer_elapsed]
  = Some (visit_signed_in unlimited).
Proof. vm_compute. reflexivity. Qed.

Lemma visit_submitted_visit :
  visit unlimited contains_at ∅
    [Click_Navbar_Install; Input_email alice;
     Input_password (js "secret"); Submit_AuthModal]
  = Some (visit_submitted unlimited).
Proof. vm_compute. reflexivity. Qed.


Lemma links_gated_by_session_witness :
  User_or_null (user (auth (signed_in_world unlimited))) /\
  links_gated (Session_present (signed_in_world unlimited))
    (checkoutUrl Professional) (signed_in_world unlimited).
Proof.
  assert (User_or_null (user (auth (signed_in_world unlimited)))) as Htyped.
  { right. vm_compute. reflexivity. }
  split; [exact Htyped|].
  exact (proj2 (links_gated_by_session (checkoutUrl Professional)
                  (signed_in_world unlimited)) Htyped).
Defined.

Lemma submission_flow_witness :
  running unlimited contains_at (visit_submitted unlimited) /\
  nonempty (timers (visit_submitted unlimited)) = true /\
  AuthModal.submit_disabled (visit_submitted unlimited) = true.
Proof.
  assert (running unlimited contains_at (visit_submitted unlimited)) as Hrun
      by (exists true;
          exact (visit_page unlimited contains_at ∅ _ _ visit_submitted_visit)).
  assert (nonempty (timers (visit_submitted unlimited)) = true) as Hwaiting
      by (vm_compute; reflexivity).
  split; [exact Hrun|]. split; [exact Hwaiting|].
  exact (proj1 (proj2 (proj2
           (submission_flow unlimited contains_at view_signup alice
              (visit_filled unlimited) (visit_submitted unlimited))))
           (visit_submitted unlimited) Hrun Hwaiting).
Defined.

(** ** A store with no room *)

(** C2, as stated, fails: with the dialog open over a store that refuses
    the write, [login] throws QuotaExceededError; the record is not stored
    and the dialog stays open. *)
Lemma login_refused_by_full_store :
  outcome (login no_room alice) (visit_dialog no_room) =
    Throw QuotaExceededError /\
  localStorage (world_after (login no_room alice) (visit_dialog no_room))
    !! viralAuditUser = None /\
  showAuthModal (auth (world_after (login no_room alice) (visit_dialog no_room)))
    = true /\
  ~ sign_in_never_fails (login no_room) alice (visit_dialog no_room).
Proof.
  assert (outcome (login no_room alice) (visit_dialog no_room) =
          Throw QuotaExceededError) as Hout by (vm_compute; reflexivity).
  split; [exact Hout|]. split; [vm_compute; reflexivity|].
  split; [vm_compute; reflexivity|].
  intros [Hnormal _]. rewrite Hout in Hnormal. discriminate Hnormal.
Qed.

(** C8, as stated, fails: over a store that refuses the write, the
    submitted form's handler throws QuotaExceededError when the timer
    elapses, after setting the session: [loading] is never cleared, the
    email stays in its field and the dialog stays open. *)
Lemma submission_stuck_on_full_store :
  let w1 := visit_submitted no_room in
  let w2 := world_after (dispatch no_room Timer_elapsed) w1 in
  page no_room contains_at true w1 /\
  outcome (dispatch no_room Timer_elapsed) w1 = Throw QuotaExceededError /\
  new_calls (dispatch no_room Timer_elapsed) w1 =
    [Enter_signup alice;
     Call_setUser (JObj [(email_key, JStr alice)]);
     Call_setItem viralAuditUser (JSON_stringify [(email_key, alice)])] /\
  AuthModal.submit_disabled w2 = true /\
  email (form w2) = alice /\
  showAuthModal (auth w2) = true.
Proof.
  cbv zeta. split.
  - apply (visit_page no_room contains_at ∅
             [Click_Navbar_Install; Input_email alice;
              Input_password (js "secret"); Submit_AuthModal]).
    vm_compute. reflexivity.
  - repeat split; vm_compute; reflexivity.
Qed.



(** ** The further properties in a store with room *)

Lemma visit_reload_restores_session_witness :
  rehydrates_to (localStorage (visit_signed_in unlimited))
    (user (auth (visit_signed_in unlimited))).
Proof.
  exact (visit_reload_restores_session unlimited contains_at ∅ _ _
           visit_signed_in_visit).
Defined.

Lemma submission_cannot_be_altered_witness :
  let es := [Input_email (js "mallory@example.com"); Click_AuthModal_switch;
             Click_AuthModal_close; Click_Navbar_Login] in
  let w1 := world_after (dispatch unlimited Click_Navbar_Login)
              (world_after (dispatch unlimited Click_AuthModal_close)
                 (world_after (dispatch unlimited Click_AuthModal_switch)
                    (world_after
                       (dispatch unlimited (Input_email (js "mallory@example.com")))
                       (visit_submitted unlimited)))) in
  run_events unlimited contains_at es
    (world_after (dispatch unlimited Submit_AuthModal) (visit_filled unlimited))
    = Some w1 /\
  user (auth (world_after (dispatch unlimited Timer_elapsed) w1)) =
    JObj [(email_key, JStr (email (form (visit_filled unlimited))))].
Proof.
  cbv zeta.
  assert (timers (visit_filled unlimited) = []) as Hts
      by (vm_compute; reflexivity).
  match goal with
  | |- ?R = Some ?w /\ _ =>
      assert (R = Some w) as Hrun by (vm_compute; reflexivity)
  end.
  split; [exact Hrun|].
  exact (proj1 (proj2 (proj2 (proj2
           (submission_cannot_be_altered unlimited contains_at
              [Input_email (js "mallory@example.com"); Click_AuthModal_switch;
               Click_AuthModal_close; Click_Navbar_Login]
              (visit_filled unlimited) _ Hts eq_refl Hrun))))).
Defined.

Lemma last_operation_wins_witness :
  record_fits unlimited alice visit_mounted = true /\
  same_page
    (world_after (sign_in unlimited view_login alice)
       (world_after (sign_in unlimited view_signup (js "bob@example.com"))
          visit_mounted))
    (world_after (sign_in unlimited view_login alice) visit_mounted).
Proof.
  split; [reflexivity|].
  exact (proj1 (proj1 (last_operation_wins unlimited view_signup view_login
                         (js "bob@example.com") alice visit_mounted)
                  eq_refl)).
Defined.



Lemma no_navigation_without_session_witness :
  let es := [Click_Pricing Starter; Click_AuthModal_close;
             Click_Navbar_Install; Input_email alice;
             Input_password (js "secret"); Submit_AuthModal;
             Click_Hero_Install] in
  let w := world_after (dispatch unlimited Click_Hero_Install)
             (world_after (dispatch unlimited Submit_AuthModal)
                (world_after (dispatch unlimited (Input_password (js "secret")))
                   (world_after (dispatch unlimited (Input_email alice))
                      (world_after (dispatch unlimited Click_Navbar_Install)
                         (world_after (dispatch unlimited Click_AuthModal_close)
                            (world_after
                               (dispatch unlimited (Click_Pricing Starter))
                               visit_mounted)))))) in
  visit unlimited contains_at ∅ es = Some w /\ navigations (trace w) = [].
Proof.
  cbv zeta.
  match goal with
  | |- ?V = Some ?w /\ _ =>
      assert (V = Some w) as Hvisit by (vm_compute; reflexivity)
  end.
  split; [exact Hvisit|].
  exact (proj1 (no_navigation_without_session unlimited contains_at ∅
                  [Click_Pricing Starter; Click_AuthModal_close;
                   Click_Navbar_Install; Input_email alice;
                   Input_password (js "secret"); Submit_AuthModal;
                   Click_Hero_Install] _ Hvisit eq_refl eq_refl)).
Defined.

Lemma one_submission_at_a_time_witness :
  running unlimited contains_at (visit_submitted unlimited) /\
  nonempty (timers (visit_submitted unlimited)) = true /\
  rendered contains_at (visit_submitted unlimited) Submit_AuthModal = false.
Proof.
  assert (running unlimited contains_at (visit_submitted unlimited)) as Hrun
      by (exists true;
          exact (visit_page unlimited contains_at ∅ _ _ visit_submitted_visit)).
  assert (nonempty (timers (visit_submitted unlimited)) = true) as Hw
      by (vm_compute; reflexivity).
  split; [exact Hrun|]. split; [exact Hw|].
  exact (proj2 (one_submission_at_a_time unlimited contains_at
                  (visit_submitted unlimited) Hrun) Hw).
Defined.

Lemma funnel_signs_in_then_installs_witness :
  exists w,
    visit unlimited contains_at ∅ (funnel alice (js "secret")) = Some w /\
    user (auth w) = JObj [(email_key, JStr alice)] /\
    localStorage w =
      <[viralAuditUser := JSON_stringify [(email_key, alice)]]> ∅ /\
    showAuthModal (auth w) = false /\
    form w = mkFormState [] [] false /\
    navigations (trace w) = [(install_url, Some _blank)].
Proof.
  apply (funnel_signs_in_then_installs unlimited contains_at ∅ alice
           (js "secret")).
  - apply lookup_empty.
  - discriminate.
  - discriminate.
  - reflexivity.
  - reflexivity.
Defined.

Lemma password_matters_only_if_empty_witness :
  let es := [Submit_AuthModal; Timer_elapsed] in
  nonempty (js "hunter2") = nonempty (password (form (visit_filled unlimited))) /\
  agree_up_to_password
    (run_events unlimited contains_at es (visit_filled unlimited))
    (run_events unlimited contains_at es
       (with_password (js "hunter2") (visit_filled unlimited))).
Proof.
  cbv zeta.
  assert (nonempty (js "hunter2") =
          nonempty (password (form (visit_filled unlimited)))) as Hp
      by (vm_compute; reflexivity).
  split; [exact Hp|].
  exact (password_matters_only_if_empty unlimited contains_at
           [Submit_AuthModal; Timer_elapsed] (visit_filled unlimited)
           (js "hunter2") Hp).
Defined.

Lemma store_reaches_page_only_by_refusal_witness :
  let store := {[ viralAuditUser := js "null" ]} in
  outcome (dispatch unlimited Timer_elapsed)
    (with_localStorage (fun _ => store) (visit_submitted unlimited)) =
  outcome (dispatch unlimited Timer_elapsed) (visit_submitted unlimited) /\
  exists store',
    world_after (dispatch unlimited Timer_elapsed)
      (with_localStorage (fun _ => store) (visit_submitted unlimited)) =
    with_localStorage (fun _ => store')
      (world_after (dispatch unlimited Timer_elapsed)
         (visit_submitted unlimited)).
Proof.
  cbv zeta.
  match goal with
  | |- ?L = ?R /\ _ => assert (L = R) as Hout by (vm_compute; reflexivity)
  end.
  split; [exact Hout|].
  exact (store_reaches_page_only_by_refusal unlimited Timer_elapsed
           (visit_submitted unlimited) _ Hout).
Defined.

